(** * Prompt Studio: timeline layout, drag-reflow and parameter tree

    A shallow embedding of the scene studio of [src/prompts]:

    - [InteractiveTimeline.calculateLayout] (greedy first-fit lane layout),
    - [InteractiveTimeline.handleMouseMove] (drag with clamping),
    - [SceneGenerationStudio.handleParamChange], [removeSubject], the
      prompt-type effect and the text projection.

    JavaScript numbers that hold whole seconds ([start], [end], [duration],
    lane indices) are integers [Z]; pointer coordinates are rationals [Q].
    Strings are [string]; JS arrays are lists; JS objects used as ordered
    dictionaries are association lists in insertion order. *)

From Stdlib Require Import ZArith QArith Qround Qminmax Qfield Lqa Ascii String.
From stdpp Require Import base list sorting strings pretty gmap.

Local Open Scope Z_scope.

(** ** Data model ([src/prompts/types.ts]) *)

Inductive PromptType := Image | Video | VideoWithSound.

Global Instance PromptType_eq_dec : EqDecision PromptType.
Proof. solve_decision. Defined.

(** [TimelineEvent]; the field [end] is spelled [end_], [id] is [ev_id]. *)
Record TimelineEvent := mkEvent {
  ev_id : string;
  paramName : string;
  paramPath : string;
  paramLabel : string;
  subjectId : option string;
  start : Z;
  end_ : Z;
  value : string
}.

Global Instance TimelineEvent_eq_dec : EqDecision TimelineEvent.
Proof. solve_decision. Defined.

(** ** Interval layout ([InteractiveTimeline.calculateLayout]) *)

Module Layout.

(** [TimelineEvent & { lane: number }], built by [{ ...event, lane: i }]. *)
Record LaidOut := mkLaidOut { event : TimelineEvent; lane : Z }.

Record Result := mkResult { layout : list LaidOut; totalLanes : Z }.

(** The comparator [(a, b) => a.start - b.start]. *)
Definition byStart (a b : TimelineEvent) : Z := start a - start b.

(** [Array.prototype.sort] is stable: with a consistent comparator its
    result is the stable sorted arrangement, computed here by insertion.
    An element is inserted in front of the first one it does not exceed,
    so an earlier element stays before a later one that compares equal. *)
Fixpoint insertSorted {A} (cmp : A → A → Z) (x : A) (l : list A) : list A :=
  match l with
  | [] => [x]
  | y :: l' => if decide (cmp x y ≤ 0) then x :: y :: l' else y :: insertSorted cmp x l'
  end.

Definition sort {A} (cmp : A → A → Z) (l : list A) : list A :=
  foldr (insertSorted cmp) [] l.

(** The inner loop [for (let i = 0; i < lanes.length; i++)] with its
    [break]: the index of the first lane with [lanes[i] <= event.start]. *)
Fixpoint scanLanes (lanes : list Z) (i : nat) (evStart : Z) : option nat :=
  match lanes with
  | [] => None
  | laneEnd :: rest =>
      if decide (laneEnd ≤ evStart) then Some i else scanLanes rest (S i) evStart
  end.

(** One iteration of [for (const event of sortedEvents)] on the two arrays
    [lanes] and [layout]. *)
Definition placeEvent (st : list Z * list LaidOut) (ev : TimelineEvent)
    : list Z * list LaidOut :=
  let '(lanes, layout) := st in
  match scanLanes lanes 0 (start ev) with
  | Some i =>
      (<[i := end_ ev]> lanes, layout ++ [mkLaidOut ev (Z.of_nat i)])
  | None =>
      let lanes' := lanes ++ [end_ ev] in
      (lanes', layout ++ [mkLaidOut ev (Z.of_nat (length lanes') - 1)])
  end.

Definition placeAll (sortedEvents : list TimelineEvent) : list Z * list LaidOut :=
  foldl placeEvent ([], []) sortedEvents.

Definition calculateLayout (allEvents : list TimelineEvent) : Result :=
  let sortedEvents := sort byStart allEvents in
  let '(lanes, layout) := placeAll sortedEvents in
  mkResult layout (Z.of_nat (length lanes)).

(** Arrays live in a store and are passed by reference.  [[...allEvents]]
    allocates a copy, and [.sort] reorders that copy in place; [layout] and
    [lanes] are local to the call. *)
Abbreviation Store := (gmap nat (list TimelineEvent)).

Definition calculateLayoutRef (σ : Store) (allEvents : nat) : option (Store * Result) :=
  evs ← σ !! allEvents;
  let sortedEvents := fresh (dom σ) in
  let σ1 := <[sortedEvents := evs]> σ in
  let σ2 := <[sortedEvents := sort byStart evs]> σ1 in
  sorted ← σ2 !! sortedEvents;
  let '(lanes, layout) := placeAll sorted in
  Some (σ2, mkResult layout (Z.of_nat (length lanes))).

(** Two events overlap when their ranges [[start, end)] share an instant. *)
Definition overlaps (a b : TimelineEvent) : Prop :=
  start a < end_ b ∧ start b < end_ a.

(** The number of events whose range contains the instant [t]. *)
Definition covers (t : Z) (e : TimelineEvent) : Prop := start e ≤ t ∧ t < end_ e.

Global Instance covers_dec t e : Decision (covers t e).
Proof. unfold covers. apply _. Defined.

Definition depth (t : Z) (evs : list TimelineEvent) : nat :=
  length (filter (covers t) evs).

(** A lane assignment by position, with [k >= 0] lanes [0 .. k-1], under
    which overlapping events never share a lane. *)
Definition validAssignment (evs : list TimelineEvent) (k : Z) (f : nat → Z) : Prop :=
  0 ≤ k
  ∧ (∀ i, (i < length evs)%nat → 0 ≤ f i < k)
  ∧ (∀ i j a b, i ≠ j → evs !! i = Some a → evs !! j = Some b →
       overlaps a b → f i ≠ f j).

(** The largest lane of a layout, [None] for the empty layout. *)
Definition maxLane (layout : list LaidOut) : option Z :=
  foldr (λ x acc, Some (from_option (Z.max (lane x)) (lane x) acc)) None layout.

(** *** Loop invariants *)

(** The order the sort establishes. *)
Definition startLe (a b : TimelineEvent) : Prop := start a ≤ start b.

(** Every placed event ends no later than the recorded end of its lane. *)
Definition laneBound (lanes : list Z) (layout : list LaidOut) : Prop :=
  ∀ x, x ∈ layout →
    ∃ i laneEnd, lane x = Z.of_nat i ∧ lanes !! i = Some laneEnd
                 ∧ end_ (event x) ≤ laneEnd.

(** Two entries at different positions that share a lane do not overlap. *)
Definition laneDisjoint (layout : list LaidOut) : Prop :=
  ∀ i j x y, i ≠ j → layout !! i = Some x → layout !! j = Some y →
    lane x = lane y → ¬ overlaps (event x) (event y).

(** The lanes in use are exactly the indices of [lanes]. *)
Definition lanesUsed (lanes : list Z) (layout : list LaidOut) : Prop :=
  (∀ x, x ∈ layout → 0 ≤ lane x < Z.of_nat (length lanes))
  ∧ (∀ i, (i < length lanes)%nat → ∃ x, x ∈ layout ∧ lane x = Z.of_nat i).

(** Every lane's recorded end is the end of a distinct processed event. *)
Definition lanesBacked (lanes : list Z) (processed : list TimelineEvent) : Prop :=
  ∃ tops others, processed ≡ₚ tops ++ others ∧ end_ <$> tops = lanes.

End Layout.

(** ** Live drag-reflow ([InteractiveTimeline], mouse handlers) *)

Module Drag.

(** The component state [draggingEvent]: the dragged event's id and the
    captured offset (in seconds) between the pointer and the event's start
    edge. *)
Record DragState := mkDrag { drag_id : string; startOffset : Q }.

(** What [getBoundingClientRect()] gives the handlers.  A rendered element
    has [width > 0]; for a zero width the JavaScript quotient is an
    infinity or NaN, which [Q] does not have. *)
Record Rect := mkRect { left : Q; width : Q }.

(** [Math.round]: the nearest integer, halves rounded up. *)
Definition round (x : Q) : Z := Qfloor (x + (1 # 2))%Q.

(** [Math.max(0, Math.min(1, mouseX / timelineRect.width))]. *)
Definition percentOf (mouseX : Q) (timelineRect : Rect) : Q :=
  Qmax 0 (Qmin 1 (mouseX / width timelineRect))%Q.

(** [Math.round((percent * duration) - draggingEvent.startOffset)]. *)
Definition candidateStart (percent : Q) (duration : Z) (d : DragState) : Z :=
  round (percent * inject_Z duration - startOffset d)%Q.

(** [Math.max(0, Math.min(newStart, duration - eventDuration))]. *)
Definition clampStart (newStart duration eventDuration : Z) : Z :=
  Z.max 0 (Z.min newStart (duration - eventDuration)).

(** [events.find(ev => ev.id === id)]. *)
Definition findEvent (id : string) (events : list TimelineEvent) : option TimelineEvent :=
  snd <$> list_find (λ ev, ev_id ev = id) events.

(** [{ ...currentEvent, start: clampedStart, end: newEnd }]. *)
Definition moved (ev : TimelineEvent) (clampedStart newEnd : Z) : TimelineEvent :=
  mkEvent (ev_id ev) (paramName ev) (paramPath ev) (paramLabel ev) (subjectId ev)
          clampedStart newEnd (value ev).

(** The clamped start computed for [currentEvent] by one pointer move. *)
Definition clampedStartOf (d : DragState) (timelineRect : Rect) (clientX : Q)
    (duration : Z) (currentEvent : TimelineEvent) : Z :=
  let mouseX := (clientX - left timelineRect)%Q in
  let percent := percentOf mouseX timelineRect in
  let eventDuration := end_ currentEvent - start currentEvent in
  let newStart := candidateStart percent duration d in
  clampStart newStart duration eventDuration.

(** [handleMouseMove]: the argument passed to [onEventUpdate], or [None]
    when the handler returns without calling it.  [timelineRect] is [None]
    when [timelineRef.current] is null. *)
Definition handleMouseMove (draggingEvent : option DragState)
    (timelineRect : option Rect) (clientX : Q)
    (events : list TimelineEvent) (duration : Z) : option TimelineEvent :=
  match draggingEvent, timelineRect with
  | Some d, Some rect =>
      match findEvent (drag_id d) events with
      | None => None
      | Some currentEvent =>
          let eventDuration := end_ currentEvent - start currentEvent in
          let clampedStart := clampedStartOf d rect clientX duration currentEvent in
          let newEnd := clampedStart + eventDuration in
          if decide (clampedStart ≠ start currentEvent)
          then Some (moved currentEvent clampedStart newEnd)
          else None
      end
  | _, _ => None
  end.

(** [handleMouseDown] on the rendered event [ev]: the new [draggingEvent]. *)
Definition handleMouseDown (timelineRect : option Rect) (eventRect : Rect)
    (clientX : Q) (ev : TimelineEvent) : option DragState :=
  match timelineRect with
  | None => None
  | Some _ =>
      let mouseX := (clientX - left eventRect)%Q in
      Some (mkDrag (ev_id ev)
              ((mouseX / width eventRect) * inject_Z (end_ ev - start ev))%Q)
  end.

(** [handleMouseUp]: [setDraggingEvent(null)]. *)
Definition handleMouseUp : option DragState := None.

End Drag.

(** ** Parameter tree ([params], [handleParamChange]) *)

Module Params.

(** The values the studio stores: strings, lists of strings, and nested
    objects whose keys keep their insertion order. *)
#[warnings="-register-all"] Inductive jval :=
  | JStr (s : string)
  | JArr (items : list string)
  | JObj (fields : list (string * jval)).

Abbreviation obj := (list (string * jval)).

(** [o[k]]: [None] is [undefined]. *)
Fixpoint objGet (k : string) (o : obj) : option jval :=
  match o with
  | [] => None
  | (k', v) :: o' => if decide (k' = k) then Some v else objGet k o'
  end.

(** [o[k] = v]: an existing key keeps its place, a new key goes last. *)
Fixpoint objSet (k : string) (v : jval) (o : obj) : obj :=
  match o with
  | [] => [(k, v)]
  | (k', v') :: o' =>
      if decide (k' = k) then (k, v) :: o' else (k', v') :: objSet k v o'
  end.

(** [delete o[k]]. *)
Definition objDelete (k : string) (o : obj) : obj :=
  filter (λ kv, kv.1 ≠ k) o.

(** JavaScript truthiness: of these values only the empty string is falsy. *)
Definition truthy (v : jval) : bool :=
  match v with
  | JStr "" => false
  | _ => true
  end.

(** [!value || (Array.isArray(value) && value.length === 0) || value === ''] *)
Definition isEmptyValue (value : jval) : bool :=
  negb (truthy value)
  || match value with JArr [] => true | _ => false end
  || match value with JStr "" => true | _ => false end.

(** [path.split('.')]: never the empty list. *)
Fixpoint split (sep : ascii) (s : string) : list string :=
  match s with
  | EmptyString => [EmptyString]
  | String c s' =>
      if decide (c = sep) then EmptyString :: split sep s'
      else match split sep s' with
           | [] => [String c EmptyString]
           | piece :: pieces => String c piece :: pieces
           end
  end.

(** [current[key] || {}]. *)
Definition childOf (key : string) (current : obj) : jval :=
  match objGet key current with
  | Some v => if truthy v then v else JObj []
  | None => JObj []
  end.

(** The body of the updater after the deep copy.  For the keys before the
    last, [current[key] = current[key] || {}; current = current[key]];
    at the last key the leaf is deleted or written.  The result is [None]
    when the walk reaches a string or an array where it needs an object:
    writing a property there throws in a module (strict code) or leaves
    the tree of [jval]. *)
Fixpoint walk (key : string) (rest : list string) (value : jval) (current : obj)
    : option obj :=
  match rest with
  | [] =>
      Some (if isEmptyValue value then objDelete key current
            else objSet key value current)
  | key' :: rest' =>
      match childOf key current with
      | JObj fields =>
          fields' ← walk key' rest' value fields;
          Some (objSet key (JObj fields') current)
      | _ => None
      end
  end.

(** [handleParamChange(path, value)] as a function of the previous [params]
    ([JSON.parse(JSON.stringify(p))] copies a [jval] tree unchanged). *)
Definition handleParamChange (path : string) (value : jval) (p : obj) : option obj :=
  match split "." path with
  | [] => None
  | key :: rest => walk key rest value p
  end.

(** Reading a path: [p[k1][k2]...], [None] when a step is [undefined]. *)
Fixpoint getPath (key : string) (rest : list string) (current : obj) : option jval :=
  match rest with
  | [] => objGet key current
  | key' :: rest' =>
      match objGet key current with
      | Some (JObj fields) => getPath key' rest' fields
      | _ => None
      end
  end.

(** Every container that the walk enters is an object or is created. *)
Fixpoint walkable (key : string) (rest : list string) (current : obj) : Prop :=
  match rest with
  | [] => True
  | key' :: rest' =>
      match childOf key current with
      | JObj fields => walkable key' rest' fields
      | _ => False
      end
  end.

End Params.

(** ** String methods

    Strings are sequences of ASCII characters; case mapping and white space
    follow JavaScript on that range. *)

Module JsString.

(** White space for [trim] and [parseInt]: tab, line feed, vertical tab,
    form feed, carriage return and space. *)
Definition isSpace (c : ascii) : bool :=
  let n := nat_of_ascii c in
  bool_decide (n = 32 ∨ (9 ≤ n ∧ n ≤ 13))%nat.

Definition isUpper (c : ascii) : bool :=
  let n := nat_of_ascii c in bool_decide (65 ≤ n ∧ n ≤ 90)%nat.

Definition isLower (c : ascii) : bool :=
  let n := nat_of_ascii c in bool_decide (97 ≤ n ∧ n ≤ 122)%nat.

Definition toLowerChar (c : ascii) : ascii :=
  if isUpper c then ascii_of_nat (nat_of_ascii c + 32) else c.

Definition toUpperChar (c : ascii) : ascii :=
  if isLower c then ascii_of_nat (nat_of_ascii c - 32) else c.

Fixpoint mapChars (f : ascii → ascii) (s : string) : string :=
  match s with
  | EmptyString => EmptyString
  | String c s' => String (f c) (mapChars f s')
  end.

Definition toLowerCase : string → string := mapChars toLowerChar.

(** [s.replace(/([A-Z])/g, ' $1')]: a space in front of every capital. *)
Fixpoint spaceCapitals (s : string) : string :=
  match s with
  | EmptyString => EmptyString
  | String c s' =>
      if isUpper c then String " " (String c (spaceCapitals s'))
      else String c (spaceCapitals s')
  end.

(** [s.replace(/^./, str => str.toUpperCase())]: [.] matches any first
    character but a line terminator. *)
Definition upperFirst (s : string) : string :=
  match s with
  | EmptyString => EmptyString
  | String c s' =>
      if bool_decide (nat_of_ascii c = 10 ∨ nat_of_ascii c = 13)%nat then s
      else String (toUpperChar c) s'
  end.

Fixpoint skipSpaces (s : string) : string :=
  match s with
  | String c s' => if isSpace c then skipSpaces s' else s
  | EmptyString => s
  end.

Fixpoint trimEnd (s : string) : string :=
  match s with
  | EmptyString => EmptyString
  | String c s' =>
      match trimEnd s' with
      | EmptyString => if isSpace c then EmptyString else String c EmptyString
      | t => String c t
      end
  end.

Definition trim (s : string) : string := trimEnd (skipSpaces s).

(** [hay.includes(needle)]. *)
Definition includes (needle hay : string) : bool :=
  bool_decide (is_Some (String.index 0 needle hay)).

(** [items.join(sep)]. *)
Definition join (sep : string) (items : list string) : string :=
  String.concat sep items.

End JsString.

(** ** The studio state and its handlers ([SceneGenerationStudio]) *)

Module Studio.
Import Params JsString.

(** [Subject]: [id], [name] and the further keys [[key: string]: any] in
    insertion order. *)
Record Subject := mkSubject { subj_id : string; name : string; attrs : obj }.

(** The [useState] cells of the studio, with the [draggingEvent] cell of
    its child [InteractiveTimeline]. *)
Record SceneState := mkState {
  promptType : PromptType;
  subjects : list Subject;
  params : obj;
  timeline : list TimelineEvent;
  animatedParams : gmap string bool;
  draggingEvent : option Drag.DragState
}.

(** Property access [v[k]] on a stored value; only objects have the named
    keys the studio reads. *)
Definition prop (k : string) (v : jval) : option jval :=
  match v with
  | JObj fields => objGet k fields
  | _ => None
  end.

(** [subject[key]]. *)
Definition subjectGet (key : string) (s : Subject) : option jval :=
  if decide (key = "id") then Some (JStr (subj_id s))
  else if decide (key = "name") then Some (JStr (name s))
  else objGet key (attrs s).

(** [{ ...subj, [key]: value }]; [id] and [name] are strings by the
    interface [Subject], other values for them are left out of the model. *)
Definition subjectSet (key : string) (v : jval) (s : Subject) : Subject :=
  if decide (key = "id") then
    match v with JStr i => mkSubject i (name s) (attrs s) | _ => s end
  else if decide (key = "name") then
    match v with JStr n => mkSubject (subj_id s) n (attrs s) | _ => s end
  else mkSubject (subj_id s) (name s) (objSet key v (attrs s)).

(** *** [parseInt(... || '12', 10) || 12] *)

Definition digitOf (c : ascii) : option Z :=
  let n := Z.of_nat (nat_of_ascii c) in
  if decide (48 ≤ n ∧ n ≤ 57) then Some (n - 48) else None.

(** The value of the longest prefix of decimal digits, [None] without one. *)
Fixpoint parseDigits (acc : option Z) (s : string) : option Z :=
  match s with
  | EmptyString => acc
  | String c s' =>
      match digitOf c with
      | Some d => parseDigits (Some (10 * default 0 acc + d)) s'
      | None => acc
      end
  end.

(** [parseInt(s, 10)]; [None] is [NaN]. *)
Definition parseInt (s : string) : option Z :=
  match skipSpaces s with
  | String "-" s' => Z.opp <$> parseDigits None s'
  | String "+" s' => parseDigits None s'
  | s' => parseDigits None s'
  end.

(** [s.replace('s', '')]: the first ['s'] is removed. *)
Fixpoint removeFirst (c : ascii) (s : string) : string :=
  match s with
  | EmptyString => EmptyString
  | String c' s' => if decide (c' = c) then s' else String c' (removeFirst c s')
  end.

(** [params.technical?.duration?.[0]], a string when it is there: the first
    item of a list, or the first character of a string. *)
Definition durationText (p : obj) : option string :=
  match objGet "technical" p with
  | Some (JObj fields) =>
      match objGet "duration" fields with
      | Some (JArr (first :: _)) => Some first
      | Some (JStr (String c _)) => Some (String c EmptyString)
      | _ => None
      end
  | _ => None
  end.

Definition duration (p : obj) : Z :=
  let text :=
    match removeFirst "s" <$> durationText p with
    | Some (String c t) => String c t
    | _ => "12"
    end in
  match parseInt text with
  | Some 0 | None => 12
  | Some n => n
  end.

(** *** Handlers *)

(** [resetState]; [now] is the text of [Date.now()]. *)
Definition resetState (now : string) (st : SceneState) : SceneState :=
  mkState (promptType st) [mkSubject ("subj_" +:+ now) "subject_1" []] [] [] ∅
          (draggingEvent st).

Definition updateSubject (id key : string) (v : jval) (st : SceneState) : SceneState :=
  mkState (promptType st)
          ((λ subj, if decide (subj_id subj = id) then subjectSet key v subj else subj)
             <$> subjects st)
          (params st) (timeline st) (animatedParams st) (draggingEvent st).

(** [removeSubject]. *)
Definition removeSubject (id : string) (st : SceneState) : SceneState :=
  match list_find (λ s, subj_id s = id) (subjects st) with
  | Some (_, subjectToRemove) =>
      mkState (promptType st)
              (filter (λ subj, subj_id subj ≠ id) (subjects st))
              (params st)
              (filter (λ event, subjectId event ≠ Some (subj_id subjectToRemove))
                      (timeline st))
              (animatedParams st) (draggingEvent st)
  | None => st
  end.

Definition addSubject (now : string) (st : SceneState) : SceneState :=
  mkState (promptType st)
          (subjects st ++
             [mkSubject ("subj_" +:+ now)
                        ("subject_" +:+ pretty (length (subjects st) + 1)%nat) []])
          (params st) (timeline st) (animatedParams st) (draggingEvent st).

Definition setParams (p : obj) (st : SceneState) : SceneState :=
  mkState (promptType st) (subjects st) p (timeline st) (animatedParams st)
          (draggingEvent st).

Definition setTimeline (t : list TimelineEvent) (st : SceneState) : SceneState :=
  mkState (promptType st) (subjects st) (params st) t (animatedParams st)
          (draggingEvent st).

Definition setDraggingEvent (d : option Drag.DragState) (st : SceneState) : SceneState :=
  mkState (promptType st) (subjects st) (params st) (timeline st) (animatedParams st) d.

(** [addTimelineEvent]; [id] is the generated [evt_...] identifier. *)
Definition addTimelineEvent (id paramPath paramLabel : string) (start end_ : Z)
    (value : string) (subjectContext : option (string * string))
    (st : SceneState) : SceneState :=
  if decide (value = "") then st
  else
    let newEvent :=
      mkEvent id
              (match subjectContext with
               | Some (_, sname) => sname +:+ "." +:+ paramLabel
               | None => paramLabel
               end)
              paramPath paramLabel (fst <$> subjectContext) start end_ value in
    setTimeline (timeline st ++ [newEvent]) st.

Definition removeTimelineEvent (id : string) (st : SceneState) : SceneState :=
  setTimeline (filter (λ event, ev_id event ≠ id) (timeline st)) st.

Definition updateTimelineEvent (updatedEvent : TimelineEvent) (st : SceneState) : SceneState :=
  setTimeline ((λ e, if decide (ev_id e = ev_id updatedEvent) then updatedEvent else e)
                 <$> timeline st) st.

(** *** What [renderField] computes for a field *)

Definition fieldPath (category subCategory : string) : string :=
  category +:+ "." +:+ subCategory.

Definition fieldLabel (subCategory : string) : string :=
  trim (spaceCapitals subCategory).

(** [v || []]. *)
Definition orEmptyList (v : option jval) : jval :=
  match v with
  | Some v => if truthy v then v else JArr []
  | None => JArr []
  end.

Definition currentValue (category subCategory : string) (subject : option Subject)
    (st : SceneState) : jval :=
  match subject with
  | Some s => orEmptyList (subjectGet subCategory s)
  | None => orEmptyList (objGet category (params st) ≫= prop subCategory)
  end.

Definition isAnimatable (category : string) (st : SceneState) : bool :=
  bool_decide (promptType st ≠ Image)
  && negb (bool_decide (category ∈ ["directorNotes"; "technical"; "rules"])).

Definition paramKey (category subCategory : string) (subject : option Subject) : string :=
  match subject with
  | Some s => subj_id s +:+ "-" +:+ fieldPath category subCategory
  | None => fieldPath category subCategory
  end.

(** [handleAddToTimeline(start, end)]: [None] when the value to animate is
    an object, which the string-typed event cannot hold. *)
Definition handleAddToTimeline (category subCategory : string)
    (subject : option Subject) (newId : string) (start end_ : Z)
    (st : SceneState) : option SceneState :=
  let add value :=
    addTimelineEvent newId (fieldPath category subCategory) (fieldLabel subCategory)
      start end_ value ((λ s, (subj_id s, name s)) <$> subject) st in
  match currentValue category subCategory subject st with
  | JArr [] => Some st
  | JArr (first :: _) => Some (add first)
  | JStr text => Some (add text)
  | JObj _ => None
  end.

(** *** User events and the step relation *)

Inductive Action :=
  | SetPromptType (type : PromptType)
  | ResetAll (now : string)
  | AddSubject (now : string)
  | UpdateSubject (id key : string) (v : jval)
  | RemoveSubject (id : string)
  | ChangeParam (path : string) (v : jval)
  | ToggleAnimated (category subCategory : string) (subject : option Subject)
  | AddToTimeline (category subCategory : string) (subject : option Subject)
                  (selStart selEnd : Z) (newId : string)
  | RemoveEvent (id : string)
  | MouseDown (ev : TimelineEvent) (timelineRect eventRect : Drag.Rect) (clientX : Q)
  | MouseMove (timelineRect : Drag.Rect) (clientX : Q)
  | MouseUp.

(** A field of a subject is rendered for a subject of the list, under the
    category ['subjects']. *)
Definition fieldRendered (category : string) (subject : option Subject)
    (st : SceneState) : Prop :=
  match subject with
  | Some s => s ∈ subjects st ∧ category = "subjects"
  | None => True
  end.

(** The event can happen: the control that raises it is rendered. *)
Definition enabled (a : Action) (st : SceneState) : Prop :=
  match a with
  | SetPromptType _ | ResetAll _ | AddSubject _ | ChangeParam _ _ => True
  | UpdateSubject id _ _ => ∃ s, s ∈ subjects st ∧ subj_id s = id
  | RemoveSubject id =>
      (1 < length (subjects st))%nat ∧ ∃ s, s ∈ subjects st ∧ subj_id s = id
  | ToggleAnimated category _ subject =>
      isAnimatable category st = true ∧ fieldRendered category subject st
  | AddToTimeline category subCategory subject selStart selEnd _ =>
      animatedParams st !! paramKey category subCategory subject = Some true
      ∧ isAnimatable category st = true
      ∧ fieldRendered category subject st
      ∧ 0 ≤ selStart < duration (params st)
      ∧ 0 ≤ selEnd < duration (params st)
  | RemoveEvent id =>
      promptType st ≠ Image ∧ ∃ e, e ∈ timeline st ∧ ev_id e = id
  | MouseDown ev _ _ _ => promptType st ≠ Image ∧ ev ∈ timeline st
  | MouseMove _ _ | MouseUp => promptType st ≠ Image
  end.

(** The handler of the event; [None] when it throws. *)
Definition handle (a : Action) (st : SceneState) : option SceneState :=
  match a with
  | SetPromptType type =>
      Some (mkState type (subjects st) (params st) (timeline st)
                    (animatedParams st) (draggingEvent st))
  | ResetAll now => Some (resetState now st)
  | AddSubject now => Some (addSubject now st)
  | UpdateSubject id key v => Some (updateSubject id key v st)
  | RemoveSubject id => Some (removeSubject id st)
  | ChangeParam path v =>
      p ← handleParamChange path v (params st); Some (setParams p st)
  | ToggleAnimated category subCategory subject =>
      let key := paramKey category subCategory subject in
      Some (mkState (promptType st) (subjects st) (params st) (timeline st)
              (<[key := negb (default false (animatedParams st !! key))]>
                 (animatedParams st))
              (draggingEvent st))
  | AddToTimeline category subCategory subject selStart selEnd newId =>
      (* TimeScrubber.handleAddClick *)
      let finalStart := Z.min selStart selEnd in
      let finalEnd := Z.max selStart selEnd + 1 in
      handleAddToTimeline category subCategory subject newId finalStart finalEnd st
  | RemoveEvent id => Some (removeTimelineEvent id st)
  | MouseDown ev timelineRect eventRect clientX =>
      Some (setDraggingEvent
              (Drag.handleMouseDown (Some timelineRect) eventRect clientX ev) st)
  | MouseMove timelineRect clientX =>
      match Drag.handleMouseMove (draggingEvent st) (Some timelineRect) clientX
                                 (timeline st) (duration (params st)) with
      | Some updatedEvent => Some (updateTimelineEvent updatedEvent st)
      | None => Some st
      end
  | MouseUp => Some (setDraggingEvent Drag.handleMouseUp st)
  end.

(** The effects that run after the render that follows a handler:
    [useEffect(() => { if (promptType === 'Image') setTimeline([]); },
    [promptType])] runs when [promptType] changed; the timeline component
    is mounted only for other prompt types, so its state is dropped. *)
Definition runEffects (prev next : SceneState) : SceneState :=
  let next' :=
    if decide (promptType prev = promptType next) then next
    else if decide (promptType next = Image) then setTimeline [] next
    else next in
  if decide (promptType next' = Image) then setDraggingEvent None next' else next'.

(** The state after mounting: every effect has run once. *)
Definition initial (now : string) : SceneState :=
  mkState Image [mkSubject ("subj_" +:+ now) "subject_1" []] [] [] ∅ None.

Definition step (st st' : SceneState) : Prop :=
  ∃ a st1, enabled a st ∧ handle a st = Some st1 ∧ st' = runEffects st st1.

Definition reachable (st : SceneState) : Prop :=
  ∃ now, rtc step (initial now) st.

(** The invariant of the prompt-type effect: no timeline event under the
    prompt type ['Image']. *)
Definition imageHasNoTimeline (st : SceneState) : Prop :=
  promptType st = Image → timeline st = [].

End Studio.

(** ** The text projection (the output effect of [SceneGenerationStudio]) *)

Module Text.
Import Params JsString Studio.

Definition nl : string := String (ascii_of_nat 10) EmptyString.

(** [Object.entries(v)] in insertion order (the studio's keys are names,
    not array indices). *)
Definition entries (v : jval) : obj :=
  match v with
  | JObj fields => fields
  | JArr items => imap (λ i x, (pretty i, JStr x)) items
  | JStr text =>
      imap (λ i c, (pretty i, JStr (String c EmptyString))) (list_ascii_of_string text)
  end.

Definition formatWildcard (val : jval) : string :=
  if negb (truthy val) then ""
  else match val with
       | JStr text => text
       | JObj _ => "[object Object]"
       | JArr [] => ""
       | JArr [only] => only
       | JArr items => "{" +:+ join "|" items +:+ "}"
       end.

Definition buildSegment (categoryName : string) (subParams : jval) : string :=
  let title := upperFirst (spaceCapitals categoryName) in
  let '(segment, hasContent) :=
    foldl (λ '(segment, hasContent) '(param, value),
             let formattedValue := formatWildcard value in
             if decide (formattedValue = "") then (segment, hasContent)
             else (segment +:+ nl +:+ "  - " +:+ toLowerCase (spaceCapitals param)
                           +:+ ": " +:+ formattedValue, true))
          (nl +:+ nl +:+ title +:+ ":", false)
          (entries subParams) in
  if hasContent : bool then segment else "".

(** Section 1: one block per subject that has a printable attribute. *)
Definition subjectBlock (s : Subject) : string :=
  let subjectParams :=
    filter (λ kv, kv.1 ≠ "name" ∧ formatWildcard kv.2 ≠ "") (attrs s) in
  match subjectParams with
  | [] => ""
  | _ =>
      foldl (λ text '(key, value),
               text +:+ nl +:+ "  - " +:+ key +:+ ": " +:+ formatWildcard value)
            (nl +:+ nl +:+ "Subject " +:+ String (ascii_of_nat 34) EmptyString
                +:+ name s +:+ String (ascii_of_nat 34) EmptyString +:+ ":")
            subjectParams
  end.

Definition subjectsText (subjects : list Subject) : string :=
  foldl (λ text s, text +:+ subjectBlock s) "" subjects.

(** Section 2: the categories in the order of [promptOrder]. *)
Definition promptOrder : list string :=
  ["directorNotes"; "scene"; "composition"; "camera"; "style"; "audio"; "technical"].

Definition categoryText (p : obj) (category : string) : string :=
  match objGet category p with
  | Some v =>
      if truthy v && bool_decide (0 < length (entries v))%nat then
        if bool_decide (category = "technical")
           && from_option truthy false (objGet "technical" p ≫= prop "negativeKeywords")
        then ""
        else buildSegment category v
      else ""
  | None => ""
  end.

Definition categoriesText (p : obj) : string :=
  foldl (λ text category, text +:+ categoryText p category) "" promptOrder.

(** Section 3: the events by [start]. *)
Definition eventLine (subjects : list Subject) (event : TimelineEvent) : string :=
  let subjectName :=
    match subjectId event with
    | Some sid =>
        if decide (sid = "") then None
        else (name ∘ snd) <$> list_find (λ s, subj_id s = sid) subjects
    | None => None
    end in
  let prefix :=
    match subjectName with
    | Some (String c n) => "subject_" +:+ String c n +:+ "." +:+ paramLabel event
    | _ => paramPath event
    end in
  nl +:+ "  - (" +:+ pretty (start event) +:+ "s-" +:+ pretty (end_ event) +:+ "s) "
     +:+ prefix +:+ ": " +:+ value event.

Definition timelineText (subjects : list Subject) (timeline : list TimelineEvent) : string :=
  match timeline with
  | [] => ""
  | _ =>
      foldl (λ text event, text +:+ eventLine subjects event)
            (nl +:+ nl +:+ "Timeline:")
            (Layout.sort Layout.byStart timeline)
  end.

(** Section 4: [params.rules?.negativeKeywords].  The result is [None]
    where [.join] is called on a value that is not a list. *)
Definition rulesText (p : obj) : option string :=
  match objGet "rules" p ≫= prop "negativeKeywords" with
  | Some (JArr []) | None => Some ""
  | Some (JArr items) =>
      Some (nl +:+ nl +:+ "Negative Keywords: " +:+ join ", " items)
  | Some (JStr "") => Some ""
  | Some (JStr _) => None
  | Some (JObj fields) =>
      match objGet "length" fields with
      | None => Some ""
      | Some _ => None
      end
  end.

Definition header (type : PromptType) : string :=
  "Create " +:+ (if decide (type = Image) then "an image" else "a video")
  +:+ " with the following parameters:".

(** The text before the final [trim()]. *)
Definition untrimmedText (st : SceneState) : option string :=
  rules ← rulesText (params st);
  Some (header (promptType st)
        +:+ subjectsText (subjects st)
        +:+ categoriesText (params st)
        +:+ timelineText (subjects st) (timeline st)
        +:+ rules).

(** The first argument of [updateOutputs]; [None] when the effect throws. *)
Definition textPrompt (st : SceneState) : option string :=
  let hasSubjects := existsb (λ s, bool_decide (2 < 2 + length (attrs s))%nat) (subjects st) in
  let hasParams :=
    existsb (λ kv, bool_decide (0 < length (entries kv.2))%nat) (params st) in
  let hasTimeline := bool_decide (0 < length (timeline st))%nat in
  if negb hasSubjects && negb hasParams && negb hasTimeline then Some ""
  else trim <$> untrimmedText st.

End Text.

(** ** The range selector ([TimeScrubber]) *)

Module Scrubber.

(** The [useState] cells [start], [end] and [isSelecting]; [None] is
    [null]. *)
Record ScrubberState := mkScrubber {
  sel_start : option Z;
  sel_end : option Z;
  isSelecting : bool
}.

Definition initialScrubber : ScrubberState := mkScrubber None None false.

Definition handleMouseDown (sec : Z) (st : ScrubberState) : ScrubberState :=
  mkScrubber (Some sec) (Some sec) true.

Definition handleMouseEnter (sec : Z) (st : ScrubberState) : ScrubberState :=
  if isSelecting st && bool_decide (sel_start st ≠ None)
  then mkScrubber (sel_start st) (Some sec) (isSelecting st)
  else st.

Definition handleMouseUp (st : ScrubberState) : ScrubberState :=
  mkScrubber (sel_start st) (sel_end st) false.

Definition handleReset (st : ScrubberState) : ScrubberState :=
  mkScrubber None None false.

(** [handleAddClick]: the arguments passed to [onAdd] (or [None] when it is
    not called) and the next state. *)
Definition handleAddClick (st : ScrubberState) : option (Z * Z) * ScrubberState :=
  match sel_start st, sel_end st with
  | Some s, Some e => (Some (Z.min s e, Z.max s e + 1), handleReset st)
  | _, _ => (None, st)
  end.

(** [getIsSelected(sec)]: whether the cell [sec] is highlighted. *)
Definition getIsSelected (st : ScrubberState) (sec : Z) : bool :=
  match sel_start st, sel_end st with
  | Some s, Some e =>
      bool_decide (Z.min s e ≤ sec) && bool_decide (sec ≤ Z.max s e)
  | _, _ => false
  end.

(** What the user can do on a bar of [duration] cells [0 .. duration-1];
    the two buttons are rendered while both ends are set. *)
Inductive ScrubberEvent :=
  | CellDown (sec : Z)
  | CellEnter (sec : Z)
  | BarUp
  | ClickReset
  | ClickAdd.

Definition scrubberEnabled (duration : Z) (ev : ScrubberEvent) (st : ScrubberState) : Prop :=
  match ev with
  | CellDown sec | CellEnter sec => 0 ≤ sec < duration
  | BarUp => True
  | ClickReset | ClickAdd => sel_start st ≠ None ∧ sel_end st ≠ None
  end.

Definition scrubberHandle (ev : ScrubberEvent) (st : ScrubberState) : ScrubberState :=
  match ev with
  | CellDown sec => handleMouseDown sec st
  | CellEnter sec => handleMouseEnter sec st
  | BarUp => handleMouseUp st
  | ClickReset => handleReset st
  | ClickAdd => (handleAddClick st).2
  end.

Definition scrubberStep (duration : Z) (st st' : ScrubberState) : Prop :=
  ∃ ev, scrubberEnabled duration ev st ∧ st' = scrubberHandle ev st.

(** The states of a scrubber whose [duration] stays the same. *)
Definition scrubberReachable (duration : Z) (st : ScrubberState) : Prop :=
  rtc (scrubberStep duration) initialScrubber st.

(** Both ends are cells of the bar, or both are unset. *)
Definition selectionOnBar (duration : Z) (st : ScrubberState) : Prop :=
  match sel_start st, sel_end st with
  | Some s, Some e => 0 ≤ s < duration ∧ 0 ≤ e < duration
  | None, None => True
  | _, _ => False
  end.

End Scrubber.

(** ** The chip input ([UniversalChipInput], in both component files) *)

Module ChipInput.
Import JsString.

(** [handleAdd(val)]: the argument of [onChange], [None] when it is not
    called. *)
Definition handleAdd (value : list string) (val : string) : option (list string) :=
  let trimmed := trim val in
  if decide (trimmed ≠ "" ∧ trimmed ∉ value) then Some (value ++ [trimmed])
  else None.

(** [handleRemove(val)]: the argument of [onChange]. *)
Definition handleRemove (value : list string) (val : string) : list string :=
  filter (λ v, v ≠ val) value.

(** [togglePreset(p)]. *)
Definition togglePreset (value : list string) (p : string) : option (list string) :=
  if decide (p ∈ value) then Some (handleRemove value p) else handleAdd value p.

(** Chips are distinct, non-empty and without white space at their ends. *)
Definition chipsWellFormed (value : list string) : Prop :=
  NoDup value ∧ Forall (λ v, v ≠ "" ∧ trim v = v) value.

End ChipInput.

(** ** Paths into the parameter tree *)

Module ParamPaths.
Import Params.

(** Reading the value at a dot-delimited path: [p[k1][k2]...]. *)
Definition readPath (path : string) (p : obj) : option jval :=
  match split "." path with
  | [] => None
  | key :: rest => getPath key rest p
  end.

(** The containers along the path are objects, or are missing. *)
Definition walkablePath (path : string) (p : obj) : Prop :=
  match split "." path with
  | [] => False
  | key :: rest => walkable key rest p
  end.

(** Two key sequences part at some position that both have. *)
Fixpoint diverges (key : string) (rest : list string)
    (key' : string) (rest' : list string) : Prop :=
  key ≠ key'
  ∨ (key = key'
     ∧ match rest, rest' with
       | r :: rs, r' :: rs' => diverges r rs r' rs'
       | _, _ => False
       end).

Definition pathsDiverge (path path' : string) : Prop :=
  match split "." path, split "." path' with
  | key :: rest, key' :: rest' => diverges key rest key' rest'
  | _, _ => False
  end.

(** The characters of a string. *)
Definition hasChar (c : ascii) (s : string) : Prop :=
  c ∈ list_ascii_of_string s.

End ParamPaths.

(** ** Where the timeline renders an event ([InteractiveTimeline], JSX) *)

Module Render.
Import Drag.

(** [const left = (event.start / duration) * 100], a percentage. *)
Definition leftPercent (ev : TimelineEvent) (duration : Z) : Q :=
  (inject_Z (start ev) / inject_Z duration * 100)%Q.

(** [const width = (Math.max(0.1, event.end - event.start) / duration) * 100]. *)
Definition widthPercent (ev : TimelineEvent) (duration : Z) : Q :=
  (Qmax (1 # 10) (inject_Z (end_ ev - start ev)) / inject_Z duration * 100)%Q.

(** The box of an element styled [left: L%; width: W%] inside the box of
    the timeline: both percentages are taken of the timeline's width. *)
Definition styledBox (timelineRect : Rect) (ev : TimelineEvent) (duration : Z)
    (eventRect : Rect) : Prop :=
  (left eventRect
   == left timelineRect + leftPercent ev duration / 100 * width timelineRect)%Q
  ∧ (width eventRect == widthPercent ev duration / 100 * width timelineRect)%Q.

End Render.

(** ** The form studios ([SpecializedStudios.tsx]) *)

Module Forms.
Import Params JsString.

(** [formatWildcard] of that file, on the lists of strings of the forms. *)
Definition formatList (val : list string) : string := Text.formatWildcard (JArr val).

(** [if (cond) parts.push(part)]. *)
Definition pushIf (cond : bool) (part : string) (parts : list string) : list string :=
  if cond then parts ++ [part] else parts.

Definition nonEmpty (s : string) : bool := bool_decide (s ≠ "").
Definition hasItems (l : list string) : bool := bool_decide (0 < length l)%nat.

Inductive ProductMode := Standard | Mockup.

Record ProductState := mkProduct {
  mode : ProductMode;
  productDescription : string;
  shotType : list string;
  cameraAngle : list string;
  lighting : list string;
  background : string;
  props : string;
  mockupType : list string;
  mockupLogo : string;
  mockupColors : string;
  mockupContext : string
}.

(** The [text] of [productPromptGenerator]. *)
Definition productText (state : ProductState) : string :=
  match mode state with
  | Standard =>
      let parts := [] in
      let parts := pushIf (nonEmpty (productDescription state))
                     ("A commercial photograph of " +:+ productDescription state +:+ ".")
                     parts in
      let parts := pushIf (hasItems (shotType state))
                     ("Shot Type: " +:+ formatList (shotType state) +:+ ".") parts in
      let parts := pushIf (hasItems (cameraAngle state))
                     ("Angle: " +:+ formatList (cameraAngle state) +:+ ".") parts in
      let parts := pushIf (hasItems (lighting state))
                     ("Lighting: " +:+ formatList (lighting state) +:+ ".") parts in
      let parts := pushIf (nonEmpty (background state))
                     ("Background: " +:+ background state +:+ ".") parts in
      let parts := pushIf (nonEmpty (props state))
                     ("Props: " +:+ props state +:+ ".") parts in
      join " " parts
  | Mockup =>
      let parts := [] in
      let parts := pushIf (hasItems (mockupType state))
                     ("A branded mockup of a " +:+ formatList (mockupType state) +:+ ".")
                     parts in
      let parts := pushIf (nonEmpty (mockupLogo state))
                     ("Features logo from " +:+ mockupLogo state +:+ ".") parts in
      let parts := pushIf (nonEmpty (mockupColors state))
                     ("Colors: " +:+ mockupColors state +:+ ".") parts in
      let parts := pushIf (nonEmpty (mockupContext state))
                     ("Context: " +:+ mockupContext state +:+ ".") parts in
      join " " parts
  end.

Record BannerState := mkBanner {
  size : string;
  customWidth : string;
  customHeight : string;
  style : list string;
  palette : string;
  headline : string;
  body : string;
  cta : string
}.

Definition quote : string := String (ascii_of_nat 34) EmptyString.

(** The [size] of [bannerPromptGenerator], also its [finalSize]. *)
Definition finalSize (state : BannerState) : string :=
  if decide (size state = "custom") then
    if nonEmpty (customWidth state) && nonEmpty (customHeight state)
    then customWidth state +:+ "x" +:+ customHeight state
    else ""
  else size state.

(** The [text] of [bannerPromptGenerator]. *)
Definition bannerText (state : BannerState) : string :=
  let size := finalSize state in
  let parts := [] in
  let styleText := formatList (style state) in
  let parts :=
    if nonEmpty styleText || nonEmpty size then
      let initialPart := "Design a" in
      let initialPart :=
        if nonEmpty styleText then initialPart +:+ " " +:+ styleText else initialPart in
      let initialPart := initialPart +:+ " web banner" in
      let initialPart :=
        if nonEmpty size then initialPart +:+ " (" +:+ size +:+ ")" else initialPart in
      let initialPart := initialPart +:+ "." in
      parts ++ [initialPart]
    else parts in
  let parts := pushIf (nonEmpty (palette state))
                 ("Palette: " +:+ palette state +:+ ".") parts in
  let parts := pushIf (nonEmpty (headline state))
                 ("Headline: " +:+ quote +:+ headline state +:+ quote +:+ ".") parts in
  let parts := pushIf (nonEmpty (body state))
                 ("Body: " +:+ quote +:+ body state +:+ quote +:+ ".") parts in
  let parts := pushIf (nonEmpty (cta state))
                 ("CTA: " +:+ quote +:+ cta state +:+ quote +:+ ".") parts in
  join " " parts.

End Forms.

(** ** Further invariants of the layout loop *)

Module LayoutInv.
Import Layout.

(** Every lane's recorded end is the end of an entry placed in that lane. *)
Definition lanesLast (lanes : list Z) (layout : list LaidOut) : Prop :=
  ∀ i laneEnd, lanes !! i = Some laneEnd →
    ∃ y, y ∈ layout ∧ lane y = Z.of_nat i ∧ end_ (event y) = laneEnd.

(** First fit: below the lane of an entry, every lane holds an entry placed
    earlier that overlaps it. *)
Definition firstFit (layout : list LaidOut) : Prop :=
  ∀ n x, layout !! n = Some x →
    ∀ j, 0 ≤ j < lane x →
      ∃ m y, (m < n)%nat ∧ layout !! m = Some y ∧ lane y = j
             ∧ overlaps (event y) (event x).

(** The lane of the entry at a position of the layout. *)
Definition laneAt (layout : list LaidOut) (i : nat) : Z :=
  from_option lane 0 (layout !! i).

(** No two events at different positions overlap. *)
Definition pairwiseDisjoint (evs : list TimelineEvent) : Prop :=
  ∀ i j a b, i ≠ j → evs !! i = Some a → evs !! j = Some b → ¬ overlaps a b.

End LayoutInv.

(** ** Invariants of the studio state *)

Module StudioInv.
Import Studio.

(** What the creation path and the drag keep true of an event. *)
Definition eventWellFormed (e : TimelineEvent) : Prop :=
  0 ≤ start e ∧ start e < end_ e ∧ value e ≠ "".

(** Every event that names a subject names one of the list. *)
Definition noDangling (st : SceneState) : Prop :=
  ∀ e sid, e ∈ timeline st → subjectId e = Some sid →
    ∃ s, s ∈ subjects st ∧ subj_id s = sid.

End StudioInv.

(** The event and drag of the drag scenario: [{start: 2, end: 5}], offset 0. *)
Definition e25 := mkEvent "e" "Action" "scene.action" "action" None 2 5 "run".
Definition drag25 := Drag.mkDrag "e" 0.

(** A tree with a sub-field and negative keywords under [technical]. *)
Definition technicalWithKeywords : Studio.SceneState :=
  Studio.mkState Image [Studio.mkSubject "subj_1" "subject_1" []]
    [("technical",
      Params.JObj [("duration", Params.JArr ["5s"]);
                   ("negativeKeywords", Params.JArr ["blurry"])])]
    [] ∅ None.

(** A tree with a sub-field under [technical] and keywords under [rules]. *)
Definition technicalAndRules : Studio.SceneState :=
  Studio.mkState Video [Studio.mkSubject "subj_1" "subject_1" []]
    [("rules", Params.JObj [("negativeKeywords", Params.JArr ["blurry"; "text"])]);
     ("technical", Params.JObj [("duration", Params.JArr ["5s"])])]
    [] ∅ None.

(** An event longer than a timeline of 10 seconds. *)
Definition e2_20 := mkEvent "e" "Action" "scene.action" "action" None 2 20 "run".

(** Two subjects, an event of each and an event without a subject. *)
Definition twoSubjects : Studio.SceneState :=
  Studio.mkState Video
    [Studio.mkSubject "s1" "hero" []; Studio.mkSubject "s2" "villain" []]
    []
    [mkEvent "a" "hero.pose" "subjects.pose" "pose" (Some "s1") 0 3 "stand";
     mkEvent "b" "villain.pose" "subjects.pose" "pose" (Some "s2") 1 4 "sit";
     mkEvent "c" "action" "scene.action" "action" None 2 5 "rain"]
    ∅ None.

(** A session: switch to video, set a value, animate it, add an event. *)
Definition sessionActions : list Studio.Action :=
  [Studio.SetPromptType Video;
   Studio.ChangeParam "scene.action" (Params.JArr ["run"]);
   Studio.ToggleAnimated "scene" "action" None;
   Studio.AddToTimeline "scene" "action" None 4 2 "evt_1"].

(** Running handlers and effects in sequence from a state. *)
Definition runActions (st : Studio.SceneState) (actions : list Studio.Action)
    : option Studio.SceneState :=
  foldl (λ acc a, st ← acc; st1 ← Studio.handle a st; Some (Studio.runEffects st st1))
        (Some st) actions.

(** Every action of the list can happen in the state it meets. *)
Fixpoint allEnabled (st : Studio.SceneState) (actions : list Studio.Action) : Prop :=
  match actions with
  | [] => True
  | a :: rest =>
      Studio.enabled a st
      ∧ match Studio.handle a st with
        | Some st1 => allEnabled (Studio.runEffects st st1) rest
        | None => False
        end
  end.

(** A video prompt with a subject, three categories and two events. *)
Definition chaseScene : Studio.SceneState :=
  Studio.mkState Video
    [Studio.mkSubject "subj_1" "hero"
       [("age", Params.JArr ["30"]); ("mood", Params.JArr ["calm"; "tense"])]]
    [("technical", Params.JObj [("duration", Params.JArr ["5s"]);
                                ("aspectRatio", Params.JArr ["16:9"])]);
     ("rules", Params.JObj [("negativeKeywords", Params.JArr ["blurry"; "text"])]);
     ("directorNotes", Params.JObj [("mainIdea", Params.JArr ["a chase"])])]
    [mkEvent "d" "Action" "scene.action" "action" None 2 6 "walk";
     mkEvent "c" "Action" "scene.action" "action" None 0 4 "run"]
    ∅ None.

Definition e03 := mkEvent "a" "Action" "scene.action" "action" None 0 3 "run".
Definition e36 := mkEvent "b" "Action" "scene.action" "action" None 3 6 "walk".
Definition e04 := mkEvent "c" "Action" "scene.action" "action" None 0 4 "run".
Definition e26 := mkEvent "d" "Action" "scene.action" "action" None 2 6 "walk".

(** A video state in which the event [e25] is being dragged. *)
Definition draggingState : Studio.SceneState :=
  Studio.mkState Video [Studio.mkSubject "subj_1" "subject_1" []] [] [e25] ∅
                 (Some drag25).

(** A selection dragged from cell 4 back to cell 2. *)
Definition selected42 : Scrubber.ScrubberState :=
  Scrubber.mkScrubber (Some 4) (Some 2) true.

(** A banner form with a custom size that lacks its height. *)
Definition customBanner : Forms.BannerState :=
  Forms.mkBanner "custom" "1200" "" [] "" "" "" "".

(** * The definitions on the scenarios of the specification *)

Module Scenarios.
Import Params Studio Text.

Example layout_scenario_1 :
  Layout.calculateLayout [e03; e36]
  = Layout.mkResult [Layout.mkLaidOut e03 0; Layout.mkLaidOut e36 0] 1.
Proof. reflexivity. Qed.

Example layout_scenario_2 :
  Layout.calculateLayout [e26; e04]
  = Layout.mkResult [Layout.mkLaidOut e04 0; Layout.mkLaidOut e26 1] 2.
Proof. reflexivity. Qed.

(** Equal starts keep their input order. *)
Example sort_is_stable :
  Layout.sort Layout.byStart [e26; e04; e03] = [e04; e03; e26].
Proof. reflexivity. Qed.

Example split_path : split "." "camera.angle" = ["camera"; "angle"].
Proof. reflexivity. Qed.

Example split_no_dot : split "." "camera" = ["camera"].
Proof. reflexivity. Qed.

Example param_set_creates_category :
  handleParamChange "camera.angle" (JArr ["low"]) []
  = Some [("camera", JObj [("angle", JArr ["low"])])].
Proof. reflexivity. Qed.

Example param_empty_list_deletes :
  handleParamChange "camera.angle" (JArr [])
    [("camera", JObj [("angle", JArr ["low"]); ("lens", JArr ["35mm"])])]
  = Some [("camera", JObj [("lens", JArr ["35mm"])])].
Proof. reflexivity. Qed.

Example param_through_string_throws :
  handleParamChange "camera.angle" (JArr ["low"]) [("camera", JStr "wide")] = None.
Proof. reflexivity. Qed.

Example duration_default : duration [] = 12.
Proof. reflexivity. Qed.

Example duration_parsed : duration (params chaseScene) = 5.
Proof. reflexivity. Qed.

Example session_adds_event :
  timeline <$> runActions (initial "0") sessionActions
  = Some [mkEvent "evt_1" "action" "scene.action" "action" None 2 5 "run"].
Proof. vm_compute. reflexivity. Qed.

Example chase_text :
  textPrompt chaseScene
  = Some ("Create a video with the following parameters:" +:+ nl +:+ nl
          +:+ "Subject " +:+ String (ascii_of_nat 34) "hero"
          +:+ String (ascii_of_nat 34) ":" +:+ nl
          +:+ "  - age: 30" +:+ nl
          +:+ "  - mood: {calm|tense}" +:+ nl +:+ nl
          +:+ "Director Notes:" +:+ nl
          +:+ "  - main idea: a chase" +:+ nl +:+ nl
          +:+ "Technical:" +:+ nl
          +:+ "  - duration: 5s" +:+ nl
          +:+ "  - aspect ratio: 16:9" +:+ nl +:+ nl
          +:+ "Timeline:" +:+ nl
          +:+ "  - (0s-4s) scene.action: run" +:+ nl
          +:+ "  - (2s-6s) scene.action: walk" +:+ nl +:+ nl
          +:+ "Negative Keywords: blurry, text").
Proof. vm_compute. reflexivity. Qed.

End Scenarios.

(** * Properties of the interval layout *)

Module LayoutFacts.
Import Layout.

#[local] Arguments placeEvent : simpl never.

(** ** The sort *)

Lemma insertSorted_perm {A} (cmp : A → A → Z) x l :
  insertSorted cmp x l ≡ₚ x :: l.
Proof.
  induction l as [|y l IH]; simpl; [done|].
  case_decide; [done|]. rewrite IH. apply Permutation_swap.
Qed.

Lemma sort_perm {A} (cmp : A → A → Z) l : sort cmp l ≡ₚ l.
Proof.
  induction l as [|x l IH]; simpl; [done|].
  fold (sort cmp l). by rewrite insertSorted_perm, IH.
Qed.

Lemma insertSorted_sorted x l :
  StronglySorted startLe l → StronglySorted startLe (insertSorted byStart x l).
Proof.
  induction 1 as [|y l Hl IH Hy]; simpl.
  - repeat constructor.
  - unfold byStart at 1. case_decide as Hc.
    + constructor; [by constructor|]. constructor; [unfold startLe; lia|].
      eapply Forall_impl; [exact Hy|]. unfold startLe. intros; lia.
    + constructor; [done|]. rewrite insertSorted_perm.
      constructor; [unfold startLe; lia | done].
Qed.

Lemma sort_sorted l : StronglySorted startLe (sort byStart l).
Proof.
  induction l as [|x l IH]; simpl; [constructor|].
  by apply insertSorted_sorted.
Qed.

(** ** The scan for a free lane *)

Lemma scanLanes_Some lanes i s j :
  scanLanes lanes i s = Some j →
  ∃ k laneEnd, j = (i + k)%nat ∧ lanes !! k = Some laneEnd ∧ laneEnd ≤ s.
Proof.
  revert i. induction lanes as [|x lanes IH]; intros i; simpl; [done|].
  case_decide as Hx.
  - intros [= <-]. exists 0%nat, x. split_and!; [lia|done|done].
  - intros (k & le & -> & Hk & Hle)%IH. exists (S k), le. split_and!; [lia|done|done].
Qed.

Lemma scanLanes_None lanes i s :
  scanLanes lanes i s = None → Forall (λ laneEnd, s < laneEnd) lanes.
Proof.
  revert i. induction lanes as [|x lanes IH]; intros i; simpl; [constructor|].
  case_decide as Hx; [done|]. intros H. constructor; [lia|by eapply IH].
Qed.

(** ** The loop: what it keeps true of [lanes] and [layout] *)

Lemma overlaps_sym a b : overlaps a b → overlaps b a.
Proof. unfold overlaps. tauto. Qed.

Lemma laneDisjoint_snoc layout n :
  laneDisjoint layout →
  (∀ x, x ∈ layout → lane x = lane n → ¬ overlaps (event x) (event n)) →
  laneDisjoint (layout ++ [n]).
Proof.
  intros Hd Hn i j x y Hij Hi Hj Hl.
  apply lookup_app_Some in Hi as [Hi|[Hi1 Hi2]];
    apply lookup_app_Some in Hj as [Hj|[Hj1 Hj2]].
  - by eapply Hd.
  - apply list_lookup_singleton_Some in Hj2 as [_ <-].
    apply Hn; [by eapply list_elem_of_lookup_2|done].
  - apply list_lookup_singleton_Some in Hi2 as [_ <-].
    intros Ho%overlaps_sym. revert Ho.
    apply Hn; [by eapply list_elem_of_lookup_2|done].
  - apply list_lookup_singleton_Some in Hi2 as [Hi2 _].
    apply list_lookup_singleton_Some in Hj2 as [Hj2 _]. lia.
Qed.

Lemma placeEvent_disjoint lanes layout ev lanes' layout' :
  start ev ≤ end_ ev →
  laneBound lanes layout → laneDisjoint layout →
  placeEvent (lanes, layout) ev = (lanes', layout') →
  laneBound lanes' layout' ∧ laneDisjoint layout'.
Proof.
  intros Hev Hb Hd. unfold placeEvent.
  destruct (scanLanes lanes 0 (start ev)) as [i|] eqn:Hscan; intros [= <- <-].
  - apply scanLanes_Some in Hscan as (k & le & -> & Hk & Hle). simpl.
    split.
    + intros x [Hx| ->%list_elem_of_singleton]%elem_of_app.
      * destruct (Hb x Hx) as (j & lj & Hlane & Hj & Hend).
        destruct (decide (j = k)) as [->|Hne].
        -- exists k, (end_ ev). split_and!; [done| |].
           ++ apply list_lookup_insert_eq. by eapply lookup_lt_Some.
           ++ simplify_eq. lia.
        -- exists j, lj. split_and!; [done| |done].
           by rewrite list_lookup_insert_ne.
      * exists k, (end_ ev). split_and!; [done| |simpl; lia].
        apply list_lookup_insert_eq. by eapply lookup_lt_Some.
    + apply laneDisjoint_snoc; [done|]. simpl. intros x Hx Hl.
      destruct (Hb x Hx) as (j & lj & Hlane & Hj & Hend).
      assert (j = k) as -> by lia. simplify_eq. unfold overlaps. lia.
  - split.
    + intros x [Hx| ->%list_elem_of_singleton]%elem_of_app.
      * destruct (Hb x Hx) as (j & lj & Hlane & Hj & Hend).
        exists j, lj. split_and!; [done| |done]. by apply lookup_app_l_Some.
      * exists (length lanes), (end_ ev). simpl. split_and!.
        -- rewrite length_app. simpl. lia.
        -- by rewrite lookup_app_r, Nat.sub_diag by lia.
        -- lia.
    + apply laneDisjoint_snoc; [done|]. simpl. intros x Hx Hl.
      destruct (Hb x Hx) as (j & lj & Hlane & Hj%lookup_lt_Some & Hend).
      rewrite length_app in Hl. simpl in Hl. lia.
Qed.

Lemma placeAll_disjoint evs lanes layout :
  Forall (λ e, start e ≤ end_ e) evs →
  laneBound lanes layout → laneDisjoint layout →
  laneDisjoint (foldl placeEvent (lanes, layout) evs).2.
Proof.
  revert lanes layout. induction evs as [|ev evs IH]; intros lanes layout Hevs Hb Hd.
  - done.
  - apply Forall_cons in Hevs as [Hev Hevs]. simpl.
    destruct (placeEvent (lanes, layout) ev) as [lanes' layout'] eqn:Hp.
    destruct (placeEvent_disjoint _ _ _ _ _ Hev Hb Hd Hp) as [Hb' Hd'].
    by apply IH.
Qed.

(** ** The lanes in use *)

Lemma placeEvent_events lanes layout ev :
  event <$> (placeEvent (lanes, layout) ev).2 = (event <$> layout) ++ [ev].
Proof.
  unfold placeEvent. destruct (scanLanes _ _ _); simpl; by rewrite fmap_app.
Qed.

Lemma placeAll_events evs lanes layout :
  event <$> (foldl placeEvent (lanes, layout) evs).2 = (event <$> layout) ++ evs.
Proof.
  revert lanes layout. induction evs as [|ev evs IH]; intros lanes layout; simpl.
  - by rewrite app_nil_r.
  - destruct (placeEvent (lanes, layout) ev) as [lanes' layout'] eqn:Hp.
    rewrite IH. change layout' with (lanes', layout').2.
    by rewrite <- Hp, placeEvent_events, <- app_assoc.
Qed.

Lemma placeEvent_lanesUsed lanes layout ev :
  lanesUsed lanes layout →
  lanesUsed (placeEvent (lanes, layout) ev).1 (placeEvent (lanes, layout) ev).2.
Proof.
  intros [Hin Hall]. unfold placeEvent, lanesUsed.
  destruct (scanLanes lanes 0 (start ev)) as [i|] eqn:Hscan; cbn [fst snd].
  - apply scanLanes_Some in Hscan as (k & le & -> & Hk%lookup_lt_Some & _).
    rewrite length_insert. split.
    + intros x [Hx| ->%list_elem_of_singleton]%elem_of_app; [by apply Hin|].
      simpl. lia.
    + intros i Hi. destruct (Hall i Hi) as (x & Hx & Hl).
      exists x. split; [|done]. apply elem_of_app. by left.
  - rewrite length_app. simpl. split.
    + intros x [Hx%Hin| ->%list_elem_of_singleton]%elem_of_app; simpl; lia.
    + intros i Hi. destruct (decide (i < length lanes)%nat) as [Hlt|Hge].
      * destruct (Hall i Hlt) as (x & Hx & Hl).
        exists x. split; [|done]. apply elem_of_app. by left.
      * eexists. split; [apply elem_of_app; right; by apply list_elem_of_singleton|].
        simpl. lia.
Qed.

Lemma placeAll_lanesUsed evs lanes layout :
  lanesUsed lanes layout →
  lanesUsed (foldl placeEvent (lanes, layout) evs).1
            (foldl placeEvent (lanes, layout) evs).2.
Proof.
  revert lanes layout. induction evs as [|ev evs IH]; intros lanes layout H; simpl.
  - done.
  - pose proof (placeEvent_lanesUsed _ _ ev H) as H'.
    destruct (placeEvent (lanes, layout) ev) as [lanes' layout']. by apply IH.
Qed.

Lemma maxLane_nil layout : maxLane layout = None → layout = [].
Proof. by destruct layout. Qed.

Lemma maxLane_Some layout m :
  maxLane layout = Some m →
  (∃ x, x ∈ layout ∧ lane x = m) ∧ (∀ x, x ∈ layout → lane x ≤ m).
Proof.
  revert m. induction layout as [|y layout IH]; intros m; simpl; [done|].
  fold (maxLane layout). destruct (maxLane layout) as [m'|] eqn:Hm; simpl.
  - intros [= <-]. destruct (IH m' eq_refl) as [(x & Hx & Hl) Hle]. split.
    + destruct (Z.max_spec (lane y) m') as [[_ ->]|[_ ->]].
      * exists x. split; [by right|done].
      * exists y. split; [by left|done].
    + intros z [->|Hz%Hle]%elem_of_cons; lia.
  - intros [= <-]. apply maxLane_nil in Hm as ->. split.
    + exists y. split; [by left|done].
    + intros z [->|Hz]%elem_of_cons; [lia|by apply elem_of_nil in Hz].
Qed.

Lemma lanesUsed_max lanes layout :
  lanesUsed lanes layout →
  Z.of_nat (length lanes) = from_option (λ m, m + 1) 0 (maxLane layout).
Proof.
  intros [Hin Hall]. destruct (maxLane layout) as [m|] eqn:Hm; simpl.
  - apply maxLane_Some in Hm as [(x & Hx & Hl) Hle].
    pose proof (Hin x Hx) as Hb.
    destruct (Hall (length lanes - 1)%nat) as (y & Hy & Hly); [lia|].
    apply Hle in Hy. lia.
  - apply maxLane_nil in Hm as ->.
    destruct lanes as [|l lanes]; [done|].
    destruct (Hall 0%nat) as (y & Hy & _); [simpl; lia|].
    by apply elem_of_nil in Hy.
Qed.

(** ** The lane count against the depth of the event set *)

Lemma depth_perm t l1 l2 : l1 ≡ₚ l2 → depth t l1 = depth t l2.
Proof. unfold depth. by intros ->. Qed.

Lemma depth_app t l1 l2 : depth t (l1 ++ l2) = (depth t l1 + depth t l2)%nat.
Proof. unfold depth. by rewrite filter_app, length_app. Qed.

Lemma depth_all t l : Forall (covers t) l → depth t l = length l.
Proof.
  unfold depth. induction 1 as [|x l Hx Hl IH]; [done|].
  rewrite filter_cons_True by done. simpl. by rewrite IH.
Qed.

Lemma placeEvent_backed lanes layout processed ev :
  lanesBacked lanes processed →
  lanesBacked (placeEvent (lanes, layout) ev).1 (processed ++ [ev]).
Proof.
  intros (tops & others & Hperm & Hends). unfold placeEvent.
  destruct (scanLanes lanes 0 (start ev)) as [i|] eqn:Hscan; cbn [fst snd].
  - apply scanLanes_Some in Hscan as (k & le & -> & Hk & _). simpl.
    subst lanes. apply list_lookup_fmap_Some in Hk as (top & _ & Htop).
    exists (<[k := ev]> tops), (top :: others). split.
    + rewrite Hperm, insert_take_drop by (by eapply lookup_lt_Some).
      rewrite <- (take_drop_middle tops k top Htop) at 1.
      rewrite <- !app_assoc. simpl.
      rewrite <- !Permutation_middle. simpl.
      rewrite Permutation_swap. do 2 f_equiv.
      by rewrite app_nil_r.
    + by rewrite list_fmap_insert.
  - exists (tops ++ [ev]), others. split.
    + rewrite Hperm, <- !app_assoc. apply Permutation_app_head, Permutation_app_comm.
    + rewrite fmap_app. simpl. by rewrite Hends.
Qed.

Lemma placeEvent_depth lanes layout processed ev :
  start ev < end_ ev →
  Forall (λ d, start d ≤ start ev) processed →
  lanesBacked lanes processed →
  (∃ t, length lanes ≤ depth t processed)%nat →
  (∃ t, length (placeEvent (lanes, layout) ev).1 ≤ depth t (processed ++ [ev]))%nat.
Proof.
  intros Hev Hsorted (tops & others & Hperm & Hends) [t Ht]. unfold placeEvent.
  destruct (scanLanes lanes 0 (start ev)) as [i|] eqn:Hscan; cbn [fst snd].
  - exists t. rewrite length_insert, depth_app. lia.
  - exists (start ev). apply scanLanes_None in Hscan.
    rewrite length_app, depth_app, (depth_perm _ _ _ Hperm), depth_app.
    assert (depth (start ev) tops = length tops) as ->.
    { apply depth_all. apply Forall_forall. intros top Htop. split.
      - eapply (proj1 (Forall_forall _ _) Hsorted).
        rewrite Hperm. apply elem_of_app. by left.
      - subst lanes. eapply (proj1 (Forall_forall _ _) Hscan).
        by apply list_elem_of_fmap_2. }
    assert (depth (start ev) [ev] = 1%nat) as ->.
    { unfold depth. rewrite filter_cons_True; [done|]. unfold covers. lia. }
    subst lanes. rewrite length_fmap. simpl. lia.
Qed.

Lemma placeAll_depth evs lanes layout processed :
  Forall (λ e, start e < end_ e) evs →
  StronglySorted startLe evs →
  Forall (λ d, Forall (λ e, start d ≤ start e) evs) processed →
  lanesBacked lanes processed →
  (∃ t, length lanes ≤ depth t processed)%nat →
  (∃ t, length (foldl placeEvent (lanes, layout) evs).1 ≤ depth t (processed ++ evs))%nat.
Proof.
  revert lanes layout processed.
  induction evs as [|ev evs IH]; intros lanes layout processed Hpos Hsort Hdone Hback Hdepth.
  - simpl. by rewrite app_nil_r.
  - apply Forall_cons in Hpos as [Hev Hpos].
    apply StronglySorted_inv in Hsort as [Hsort Hhead].
    assert (Forall (λ d, start d ≤ start ev) processed) as Hle.
    { eapply Forall_impl; [exact Hdone|]. simpl. intros d Hd.
      by apply Forall_cons in Hd as [? _]. }
    pose proof (placeEvent_backed lanes layout processed ev Hback) as Hback'.
    pose proof (placeEvent_depth lanes layout processed ev Hev Hle Hback Hdepth) as Hdepth'.
    simpl. destruct (placeEvent (lanes, layout) ev) as [lanes' layout'].
    rewrite (assoc_L (++) processed [ev] evs : processed ++ ev :: evs = (processed ++ [ev]) ++ evs).
    apply IH; [done|done| |done|done].
    apply Forall_app. split.
    + eapply Forall_impl; [exact Hdone|]. simpl. intros d Hd.
      by apply Forall_cons in Hd as [_ ?].
    + constructor; [|constructor]. done.
Qed.

(** Any valid assignment needs as many lanes as events cover an instant. *)
Lemma covering_lanes t evs rest k f :
  validAssignment (evs ++ rest) k f →
  ∃ used : list Z,
    NoDup used ∧ length used = depth t evs
    ∧ ∀ z, z ∈ used → ∃ i a, evs !! i = Some a ∧ covers t a ∧ f i = z.
Proof.
  revert rest. induction evs as [|e evs IH] using rev_ind; intros rest Hvalid.
  - exists []. split_and!; [constructor|done|]. intros z Hz. by apply elem_of_nil in Hz.
  - rewrite <- app_assoc in Hvalid. destruct (IH _ Hvalid) as (used & Hnd & Hlen & Hused).
    rewrite depth_app. destruct (decide (covers t e)) as [He|He].
    + exists (f (length evs) :: used). split_and!.
      * constructor; [|done]. intros (i & a & Hi & Ha & Hf)%Hused.
        destruct Hvalid as (_ & _ & Hne).
        apply (Hne i (length evs) a e); [| | |by unfold covers, overlaps in *; lia|done].
        -- apply lookup_lt_Some in Hi. lia.
        -- by apply lookup_app_l_Some.
        -- by rewrite lookup_app_r, Nat.sub_diag by lia.
      * unfold depth at 2. rewrite filter_cons_True by done. simpl. lia.
      * intros z [->|Hz]%elem_of_cons.
        -- exists (length evs), e. split_and!; [|done..].
           by rewrite lookup_app_r, Nat.sub_diag by lia.
        -- destruct (Hused z Hz) as (i & a & Hi & Ha & Hf).
           exists i, a. split_and!; [|done..]. by apply lookup_app_l_Some.
    + exists used. split_and!; [done| |].
      * unfold depth at 2. rewrite filter_cons_False by done. simpl. lia.
      * intros z Hz. destruct (Hused z Hz) as (i & a & Hi & Ha & Hf).
        exists i, a. split_and!; [|done..]. by apply lookup_app_l_Some.
Qed.

Lemma depth_le_valid t evs k f :
  validAssignment evs k f → Z.of_nat (depth t evs) ≤ k.
Proof.
  intros Hvalid.
  destruct (covering_lanes t evs [] k f) as (used & Hnd & Hlen & Hused).
  { by rewrite app_nil_r. }
  assert (used ⊆+ seqZ 0 k) as Hsub.
  { apply NoDup_submseteq; [done|]. intros z (i & a & Hi & _ & <-)%Hused.
    apply elem_of_seqZ. destruct Hvalid as (_ & Hrange & _).
    apply lookup_lt_Some in Hi. specialize (Hrange i Hi). lia. }
  apply submseteq_length in Hsub. rewrite length_seqZ in Hsub.
  destruct Hvalid as (Hk & _). lia.
Qed.

End LayoutFacts.

Module LayoutTheorems.
Import Layout LayoutFacts.

#[local] Arguments placeEvent : simpl never.

Lemma calculateLayout_unfold allEvents :
  calculateLayout allEvents
  = mkResult (placeAll (sort byStart allEvents)).2
             (Z.of_nat (length (placeAll (sort byStart allEvents)).1)).
Proof. unfold calculateLayout. by destruct (placeAll _). Qed.

(** C1: with [start < end] for every event, two entries of the layout (at
    different positions) that share a lane never overlap in time. *)
Theorem calculateLayout_no_overlap (allEvents : list TimelineEvent) :
  Forall (λ e, start e < end_ e) allEvents →
  ∀ i j x y,
    i ≠ j →
    layout (calculateLayout allEvents) !! i = Some x →
    layout (calculateLayout allEvents) !! j = Some y →
    lane x = lane y →
    ¬ overlaps (event x) (event y).
Proof.
  intros Hevs. rewrite calculateLayout_unfold. simpl.
  apply placeAll_disjoint.
  - rewrite sort_perm. eapply Forall_impl; [exact Hevs|]. simpl. intros; lia.
  - intros x Hx. by apply elem_of_nil in Hx.
  - intros i j x y _ Hi. by rewrite lookup_nil in Hi.
Qed.

(** C2: with [start < end] for every event, some instant is covered by at
    least [totalLanes] events, so the lane count never exceeds the largest
    number of simultaneously running events; and no assignment that keeps
    overlapping events apart uses fewer lanes. *)
Theorem calculateLayout_minimal (allEvents : list TimelineEvent) :
  Forall (λ e, start e < end_ e) allEvents →
  (∃ t, totalLanes (calculateLayout allEvents) ≤ Z.of_nat (depth t allEvents))
  ∧ (∀ k f, validAssignment allEvents k f →
            totalLanes (calculateLayout allEvents) ≤ k).
Proof.
  intros Hevs.
  assert (∃ t, totalLanes (calculateLayout allEvents) ≤ Z.of_nat (depth t allEvents))
    as [t Ht].
  { rewrite calculateLayout_unfold. simpl.
    destruct (placeAll_depth (sort byStart allEvents) [] [] []) as [t Ht].
    - by rewrite sort_perm.
    - apply sort_sorted.
    - constructor.
    - exists [], []. by split.
    - exists 0. simpl. lia.
    - exists t. simpl in Ht. rewrite (depth_perm _ _ _ (sort_perm _ _)) in Ht.
      unfold placeAll. lia. }
  split; [by exists t|].
  intros k f Hvalid. pose proof (depth_le_valid t _ _ _ Hvalid). lia.
Qed.

(** C9: for a list held in the store, the call returns; it leaves every
    array that existed before (the input among them) as it was; the events
    of the layout are the input events, each once and with its fields
    unchanged; every lane is an integer [>= 0]; and [totalLanes] is the
    largest lane plus one, or [0] for the empty list. *)
Theorem calculateLayout_assigns_lanes (σ : Store) (ref : nat)
    (allEvents : list TimelineEvent) :
  σ !! ref = Some allEvents →
  ∃ σ' r,
    calculateLayoutRef σ ref = Some (σ', r)
    ∧ r = calculateLayout allEvents
    ∧ σ' !! ref = Some allEvents
    ∧ (∀ other, other ∈ dom σ → σ' !! other = σ !! other)
    ∧ event <$> layout r ≡ₚ allEvents
    ∧ Forall (λ x, 0 ≤ lane x) (layout r)
    ∧ totalLanes r = from_option (λ m, m + 1) 0 (maxLane (layout r))
    ∧ (match allEvents with [] => totalLanes r = 0 | _ => 0 < totalLanes r end).
Proof.
  intros Href.
  assert (∀ other, other ∈ dom σ → other ≠ fresh (dom σ)) as Hfresh.
  { intros other Hin ->. by apply is_fresh in Hin. }
  assert (lanesUsed (placeAll (sort byStart allEvents)).1
                    (placeAll (sort byStart allEvents)).2) as Hused.
  { apply placeAll_lanesUsed. split.
    - intros x Hx. by apply elem_of_nil in Hx.
    - simpl. intros i Hi. lia. }
  assert (event <$> (placeAll (sort byStart allEvents)).2 ≡ₚ allEvents) as Hperm.
  { unfold placeAll. rewrite placeAll_events. simpl. apply sort_perm. }
  eexists _, (calculateLayout allEvents).
  split_and!.
  - unfold calculateLayoutRef. rewrite Href. simpl.
    rewrite lookup_insert_eq. simpl.
    rewrite calculateLayout_unfold. by destruct (placeAll _).
  - done.
  - rewrite !lookup_insert_ne; [done|apply not_eq_sym, Hfresh..];
      apply elem_of_dom; by eexists.
  - intros other Hin. rewrite !lookup_insert_ne; [done|apply not_eq_sym, Hfresh..]; done.
  - by rewrite calculateLayout_unfold.
  - rewrite calculateLayout_unfold. simpl. apply Forall_forall.
    intros x Hx. destruct Hused as [Hin _]. specialize (Hin x Hx). lia.
  - rewrite calculateLayout_unfold. simpl. by apply lanesUsed_max.
  - rewrite calculateLayout_unfold. simpl.
    apply Permutation_length in Hperm. rewrite length_fmap in Hperm.
    destruct allEvents as [|e evs]; [done|].
    destruct (lookup_lt_is_Some_2 (placeAll (sort byStart (e :: evs))).2 0) as [x Hx];
      [rewrite Hperm; simpl; lia|].
    apply list_elem_of_lookup_2 in Hx. destruct Hused as [Hin _].
    specialize (Hin x Hx). lia.
Qed.

End LayoutTheorems.

(** * Properties of the drag handler *)

Module DragFacts.
Import Drag.

Lemma clampStart_lower newStart duration eventDuration :
  0 ≤ clampStart newStart duration eventDuration.
Proof. unfold clampStart. lia. Qed.

Lemma clampStart_upper newStart duration eventDuration :
  eventDuration ≤ duration →
  clampStart newStart duration eventDuration + eventDuration ≤ duration.
Proof. unfold clampStart. lia. Qed.

Lemma clampStart_degenerate newStart duration eventDuration :
  duration ≤ eventDuration → clampStart newStart duration eventDuration = 0.
Proof. unfold clampStart. lia. Qed.

Lemma findEvent_Some id events ev :
  findEvent id events = Some ev → ev ∈ events ∧ ev_id ev = id.
Proof.
  unfold findEvent. destruct (list_find _ events) as [[i e]|] eqn:Hfind; [|done].
  intros [= <-]. apply list_find_Some in Hfind as (Hi & Hid & _).
  split; [by eapply list_elem_of_lookup_2|done].
Qed.

(** What a pointer move emits, spelled out. *)
Lemma handleMouseMove_Some draggingEvent timelineRect clientX events duration updated :
  handleMouseMove draggingEvent timelineRect clientX events duration = Some updated →
  ∃ d rect current,
    draggingEvent = Some d ∧ timelineRect = Some rect
    ∧ findEvent (drag_id d) events = Some current
    ∧ clampedStartOf d rect clientX duration current ≠ start current
    ∧ updated = moved current (clampedStartOf d rect clientX duration current)
                  (clampedStartOf d rect clientX duration current
                   + (end_ current - start current)).
Proof.
  unfold handleMouseMove.
  destruct draggingEvent as [d|], timelineRect as [rect|]; try done.
  destruct (findEvent _ _) as [current|] eqn:Hfind; [|done].
  case_decide as Hne; [|done]. intros [= <-]. by exists d, rect, current.
Qed.

End DragFacts.

Module DragTheorems.
Import Drag DragFacts.

(** C3: on a rendered timeline, when the dragged event satisfies
    [0 <= start < end <= duration], an update emitted by a pointer move is
    that event with only [start] and [end] replaced, with [0 <= newStart],
    [newStart + (end - start) <= duration] and the same length
    [end - start]. *)
Theorem handleMouseMove_in_bounds
    (draggingEvent : option DragState) (timelineRect : option Rect) (clientX : Q)
    (events : list TimelineEvent) (duration : Z) (updated : TimelineEvent) :
  (∀ rect, timelineRect = Some rect → (0 < width rect)%Q) →
  (∀ d current,
     draggingEvent = Some d → findEvent (drag_id d) events = Some current →
     0 ≤ start current ∧ start current < end_ current ∧ end_ current ≤ duration) →
  handleMouseMove draggingEvent timelineRect clientX events duration = Some updated →
  ∃ d current,
    draggingEvent = Some d
    ∧ findEvent (drag_id d) events = Some current
    ∧ updated = moved current (start updated) (end_ updated)
    ∧ 0 ≤ start updated
    ∧ start updated + (end_ current - start current) ≤ duration
    ∧ end_ updated - start updated = end_ current - start current.
Proof.
  intros _ Hbounds (d & rect & current & -> & _ & Hfind & Hne & ->)%handleMouseMove_Some.
  exists d, current. pose proof (Hbounds d current eq_refl Hfind) as Hb.
  simpl. unfold clampedStartOf in *. split_and!; [done|done|done| | |lia].
  - apply clampStart_lower.
  - apply clampStart_upper. lia.
Qed.

(** C6: on a rendered timeline, for an event at least as long as the
    timeline the clamped start is [0]; the handler emits the event moved to
    [[0, eventDuration]], or nothing when the event already starts at [0]. *)
Theorem handleMouseMove_long_event
    (d : DragState) (rect : Rect) (clientX : Q)
    (events : list TimelineEvent) (duration : Z) (current : TimelineEvent) :
  (0 < width rect)%Q →
  findEvent (drag_id d) events = Some current →
  duration ≤ end_ current - start current →
  clampedStartOf d rect clientX duration current = 0
  ∧ handleMouseMove (Some d) (Some rect) clientX events duration
    = if decide (start current = 0) then None
      else Some (moved current 0 (0 + (end_ current - start current))).
Proof.
  intros _ Hfind Hlong.
  assert (clampedStartOf d rect clientX duration current = 0) as Hzero.
  { unfold clampedStartOf. by apply clampStart_degenerate. }
  split; [done|]. unfold handleMouseMove. rewrite Hfind, Hzero.
  destruct (decide (start current = 0)) as [->|Hne]; by case_decide.
Qed.

Lemma percentOf_eq mouseX rect (p : Q) :
  (0 <= p)%Q → (p <= 1)%Q → (mouseX / width rect == p)%Q →
  (percentOf mouseX rect == p)%Q.
Proof.
  intros H0 H1 Hp. unfold percentOf.
  assert (Qmin 1 (mouseX / width rect) == p)%Q as Hmin.
  { rewrite Q.min_r; [done|]. by rewrite Hp. }
  rewrite Q.max_r; [done|]. by rewrite Hmin.
Qed.

(** C5 (as the code computes it): dragging [{start: 2, end: 5}] on a
    timeline of duration 10 with offset 0 to the pointer position of time 9
    gives the clamped start [min(9, 10 - 3) = 7], and the update
    [{start: 7, end: 10}]. *)
Theorem drag_scenario_clamps_to_7 (rect : Rect) (clientX : Q) :
  ((clientX - left rect) / width rect == 9 # 10)%Q →
  candidateStart (percentOf (clientX - left rect) rect) 10 drag25 = 9
  ∧ clampedStartOf drag25 rect clientX 10 e25 = 7
  ∧ handleMouseMove (Some drag25) (Some rect) clientX [e25] 10
    = Some (moved e25 7 10).
Proof.
  intros Hpos.
  assert (candidateStart (percentOf (clientX - left rect) rect) 10 drag25 = 9) as Hc.
  { unfold candidateStart, round.
    rewrite (Qfloor_comp _ ((9 # 10) * inject_Z 10 - 0 + (1 # 2))%Q); [done|].
    rewrite (percentOf_eq _ _ (9 # 10)); [done|done|done|exact Hpos]. }
  assert (clampedStartOf drag25 rect clientX 10 e25 = 7) as Hs.
  { unfold clampedStartOf. rewrite Hc. reflexivity. }
  split_and!; [done|done|].
  unfold handleMouseMove. change (findEvent (drag_id drag25) [e25]) with (Some e25).
  cbv beta iota zeta. rewrite Hs. reflexivity.
Qed.

(** C5, the value in the claim: the clamped start of the scenario is not 5. *)
Lemma drag_scenario_not_5 :
  clampedStartOf drag25 (mkRect 0 (100 # 1)) (90 # 1) 10 e25 ≠ 5.
Proof. vm_compute. discriminate. Qed.

End DragTheorems.

(** * Properties of the parameter tree *)

Module ParamsFacts.
Import Params.

Lemma objGet_objDelete_eq k o : objGet k (objDelete k o) = None.
Proof.
  unfold objDelete. induction o as [|[k' v] o IH]; [done|].
  destruct (decide (k' = k)) as [Hk|Hk].
  - rewrite filter_cons_False; [done|]. simpl. by intros ?.
  - rewrite filter_cons_True by done. simpl. by rewrite decide_False.
Qed.

Lemma objGet_objDelete_ne k k' o : k' ≠ k → objGet k' (objDelete k o) = objGet k' o.
Proof.
  intros Hne. unfold objDelete. induction o as [|[k0 v] o IH]; [done|].
  destruct (decide (k0 = k)) as [Hk|Hk].
  - rewrite filter_cons_False by (simpl; by intros ?).
    simpl. rewrite decide_False by congruence. done.
  - rewrite filter_cons_True by done. simpl. by rewrite IH.
Qed.

Lemma objGet_objSet_eq k v o : objGet k (objSet k v o) = Some v.
Proof.
  induction o as [|[k' v'] o IH]; simpl.
  - by rewrite decide_True.
  - case_decide; simpl; [by rewrite decide_True|by rewrite decide_False].
Qed.

Lemma objGet_objSet_ne k k' v o : k' ≠ k → objGet k' (objSet k v o) = objGet k' o.
Proof.
  intros Hne. induction o as [|[k0 v0] o IH]; simpl.
  - by rewrite decide_False.
  - case_decide as Hk; simpl.
    + subst k0. by rewrite !decide_False.
    + by rewrite IH.
Qed.

Lemma objDelete_only k o :
  Forall (λ kv, kv.1 = k) o → objDelete k o = [].
Proof.
  unfold objDelete. induction 1 as [|[k' v] o Hk Ho IH]; [done|].
  rewrite filter_cons_False; [done|]. simpl in *. by intros ?.
Qed.

Lemma walk_empty_deletes key rest value current current' :
  isEmptyValue value = true →
  walk key rest value current = Some current' →
  getPath key rest current' = None.
Proof.
  intros Hempty. revert key current current'.
  induction rest as [|key' rest' IH]; intros key current current'; simpl.
  - rewrite Hempty. intros [= <-]. apply objGet_objDelete_eq.
  - destruct (childOf key current) as [| |fields]; try done.
    destruct (walk key' rest' value fields) as [fields'|] eqn:Hw; [|done].
    simpl. intros [= <-]. rewrite objGet_objSet_eq. by eapply IH.
Qed.

Lemma walk_total key rest value current :
  walkable key rest current → is_Some (walk key rest value current).
Proof.
  revert key current. induction rest as [|key' rest' IH]; intros key current; simpl.
  - by eexists.
  - destruct (childOf key current) as [| |fields]; try done.
    intros [fields' ->]%IH. by eexists.
Qed.

End ParamsFacts.

Module ParamsTheorems.
Import Params ParamsFacts.

(** C7: where [camera] is an object (or is missing, and then created),
    setting [camera.angle] to [[]] returns the tree in which [camera] is
    that object without the key [angle], present even when nothing is left
    in it, and every other key is as before; and setting any path whose
    containers are objects to [''] or [[]] returns a tree in which the path
    reads as [undefined]. *)
Theorem handleParamChange_empty_deletes :
  (∀ (p camera : obj),
     childOf "camera" p = JObj camera →
     ∃ p', handleParamChange "camera.angle" (JArr []) p = Some p'
           ∧ objGet "camera" p' = Some (JObj (objDelete "angle" camera))
           ∧ objGet "angle" (objDelete "angle" camera) = None
           ∧ (∀ k, k ≠ "angle" → objGet k (objDelete "angle" camera) = objGet k camera)
           ∧ (∀ c, c ≠ "camera" → objGet c p' = objGet c p)
           ∧ (Forall (λ kv, kv.1 = "angle") camera → objGet "camera" p' = Some (JObj [])))
  ∧ (∀ (path : string) (value : jval) (p : obj),
       value = JStr "" ∨ value = JArr [] →
       ∃ key rest,
         split "." path = key :: rest
         ∧ (walkable key rest p →
            ∃ p', handleParamChange path value p = Some p'
                  ∧ getPath key rest p' = None)).
Proof.
  split.
  - intros p camera Hcam.
    exists (objSet "camera" (JObj (objDelete "angle" camera)) p).
    assert (handleParamChange "camera.angle" (JArr []) p
            = Some (objSet "camera" (JObj (objDelete "angle" camera)) p)) as Hrun.
    { unfold handleParamChange.
      change (split "." "camera.angle") with ["camera"; "angle"].
      simpl. by rewrite Hcam. }
    split_and!.
    + done.
    + apply objGet_objSet_eq.
    + apply objGet_objDelete_eq.
    + intros k Hk. by apply objGet_objDelete_ne.
    + intros c Hc. by apply objGet_objSet_ne.
    + intros Honly. by rewrite objGet_objSet_eq, objDelete_only.
  - intros path value p Hvalue. unfold handleParamChange.
    assert (isEmptyValue value = true) as Hempty by (by destruct Hvalue as [-> | ->]).
    destruct (split "." path) as [|key rest] eqn:Hsplit.
    { exfalso. clear -Hsplit. destruct path as [|c path]; simpl in Hsplit; [done|].
      case_decide; [done|]. by destruct (split "." path). }
    exists key, rest. split; [done|]. intros Hwalk.
    destruct (walk_total key rest value p Hwalk) as [p' Hp'].
    exists p'. split; [done|]. by eapply walk_empty_deletes.
Qed.

End ParamsTheorems.

(** * Properties of the studio state *)

Module StudioFacts.
Import Params Studio.

Lemma isAnimatable_not_image category st :
  isAnimatable category st = true → promptType st ≠ Image.
Proof.
  unfold isAnimatable. intros [H _]%andb_true_iff. by apply bool_decide_eq_true in H.
Qed.

Lemma runEffects_promptType prev next :
  promptType (runEffects prev next) = promptType next.
Proof. unfold runEffects. repeat case_decide; done. Qed.

Lemma runEffects_timeline prev next :
  timeline (runEffects prev next)
  = if decide (promptType prev = promptType next) then timeline next
    else if decide (promptType next = Image) then [] else timeline next.
Proof. unfold runEffects. repeat case_decide; simpl in *; done. Qed.

(** Under ['Image'] a handler that can run leaves no more events than
    there were, and only the prompt-type buttons change the prompt type. *)
Lemma handle_in_image a st st1 :
  promptType st = Image → enabled a st → handle a st = Some st1 →
  timeline st1 `sublist_of` timeline st
  ∧ (promptType st1 = promptType st ∨ ∃ type, a = SetPromptType type).
Proof.
  intros Him Hen Hh. destruct a; simpl in *.
  - injection Hh as <-. simpl. split; [done|]. right. by eexists.
  - injection Hh as <-. simpl. split; [apply sublist_nil_l|by left].
  - injection Hh as <-. simpl. split; [done|by left].
  - injection Hh as <-. simpl. split; [done|by left].
  - injection Hh as <-. unfold removeSubject.
    destruct (list_find _ _) as [[? ?]|]; simpl; split;
      [apply sublist_filter|by left|done|by left].
  - destruct (handleParamChange _ _ _); [|done]. injection Hh as <-.
    simpl. split; [done|by left].
  - destruct Hen as [Hen%isAnimatable_not_image _]. done.
  - destruct Hen as (_ & Hen%isAnimatable_not_image & _). done.
  - by destruct Hen.
  - by destruct Hen.
  - done.
  - done.
Qed.

Lemma step_keeps_invariant st st' :
  imageHasNoTimeline st → step st st' → imageHasNoTimeline st'.
Proof.
  intros Hinv (a & st1 & Hen & Hh & ->) Him.
  rewrite runEffects_promptType in Him. rewrite runEffects_timeline.
  case_decide as Hsame; [|by rewrite decide_True].
  rewrite Him in Hsame.
  destruct (handle_in_image a st st1 Hsame Hen Hh) as [Hsub _].
  rewrite (Hinv Hsame) in Hsub. by apply sublist_nil_r.
Qed.

Lemma reachable_invariant st : reachable st → imageHasNoTimeline st.
Proof.
  intros [now Hrtc]. revert st Hrtc.
  apply (rtc_ind_r imageHasNoTimeline); [done|].
  intros st st' _ Hstep Hinv. by eapply step_keeps_invariant.
Qed.

Lemma runActions_reachable st actions :
  reachable st → allEnabled st actions →
  ∃ st', runActions st actions = Some st' ∧ reachable st'.
Proof.
  revert st. induction actions as [|a actions IH]; intros st Hreach Hall.
  - by exists st.
  - destruct Hall as [Hen Hrest].
    destruct (handle a st) as [st1|] eqn:Hh; [|done].
    destruct (IH (runEffects st st1)) as (st' & Hrun & Hreach'); [|done|].
    + destruct Hreach as [now Hrtc]. exists now. eapply rtc_r; [exact Hrtc|].
      by exists a, st1.
    + exists st'. split; [|done]. unfold runActions. simpl. rewrite Hh. simpl.
      exact Hrun.
Qed.

End StudioFacts.

Module StudioTheorems.
Import Params Studio StudioFacts.

(** C8: when a subject with the id exists, [removeSubject] keeps exactly
    the subjects with another id and exactly the events that are not bound
    to the id, both in their order; events without a subject stay; nothing
    else in the state changes. *)
Theorem removeSubject_cascade (id : string) (st : SceneState) :
  (∃ s, s ∈ subjects st ∧ subj_id s = id) →
  subjects (removeSubject id st) = filter (λ s, subj_id s ≠ id) (subjects st)
  ∧ timeline (removeSubject id st)
    = filter (λ e, subjectId e ≠ Some id) (timeline st)
  ∧ (∀ s, s ∈ subjects (removeSubject id st) ↔ s ∈ subjects st ∧ subj_id s ≠ id)
  ∧ (∀ e, e ∈ timeline (removeSubject id st)
          ↔ e ∈ timeline st ∧ subjectId e ≠ Some id)
  ∧ (∀ e, e ∈ timeline st → subjectId e = None → e ∈ timeline (removeSubject id st))
  ∧ promptType (removeSubject id st) = promptType st
  ∧ params (removeSubject id st) = params st
  ∧ animatedParams (removeSubject id st) = animatedParams st
  ∧ draggingEvent (removeSubject id st) = draggingEvent st.
Proof.
  intros (s & Hs & Hid). unfold removeSubject.
  destruct (list_find _ (subjects st)) as [[i found]|] eqn:Hfind.
  - apply list_find_Some in Hfind as (_ & Hfound & _). simpl. rewrite Hfound.
    split_and!; try done.
    + intros s'. by rewrite list_elem_of_filter, (comm and).
    + intros e. by rewrite list_elem_of_filter, (comm and).
    + intros e He Hnone. apply list_elem_of_filter. split; [by rewrite Hnone|done].
  - apply list_find_None in Hfind.
    by apply (proj1 (Forall_forall _ _) Hfind s Hs) in Hid.
Qed.

(** C10: in every reachable state with prompt type ['Image'] the timeline
    is empty; from a reachable state the button for ['Image'] leads to a
    state without events; and under ['Image'] a step never adds an event. *)
Theorem image_has_no_timeline :
  (∀ st, reachable st → promptType st = Image → timeline st = [])
  ∧ (∀ st st1, reachable st → handle (SetPromptType Image) st = Some st1 →
       promptType (runEffects st st1) = Image ∧ timeline (runEffects st st1) = [])
  ∧ (∀ st st', promptType st = Image → step st st' →
       timeline st' `sublist_of` timeline st).
Proof.
  split_and!.
  - intros st Hreach. by apply reachable_invariant.
  - intros st st1 Hreach [= <-]. rewrite runEffects_promptType. simpl.
    split; [done|].
    assert (reachable (runEffects st
              (mkState Image (subjects st) (params st) (timeline st)
                       (animatedParams st) (draggingEvent st)))) as Hreach'.
    { destruct Hreach as [now Hrtc]. exists now. eapply rtc_r; [exact Hrtc|].
      exists (SetPromptType Image). by eexists. }
    apply (reachable_invariant _ Hreach'). by rewrite runEffects_promptType.
  - intros st st' Him (a & st1 & Hen & Hh & ->).
    destruct (handle_in_image a st st1 Him Hen Hh) as [Hsub _].
    rewrite runEffects_timeline. repeat case_decide; [done|apply sublist_nil_l|done].
Qed.

End StudioTheorems.

(** * Properties of the text projection *)

Module TextFacts.
Import Params JsString Studio Text.

Lemma objGet_elem_of k v (p : obj) : objGet k p = Some v → (k, v) ∈ p.
Proof.
  induction p as [|[k' v'] p IH]; simpl; [done|].
  case_decide as Hk.
  - intros [= <-]. subst k'. by left.
  - intros H. right. by apply IH.
Qed.

Lemma existsb_elem_of {A} (f : A → bool) (l : list A) x :
  x ∈ l → f x = true → existsb f l = true.
Proof.
  induction 1 as [x l|x y l Hx IH]; simpl; intros Hf.
  - by rewrite Hf.
  - rewrite IH by done. by destruct (f y).
Qed.

(** The categories before [technical] come first, in their order. *)
Lemma categoriesText_technical_last p :
  categoriesText p
  = foldl (λ text category, text +:+ categoryText p category) ""
          ["directorNotes"; "scene"; "composition"; "camera"; "style"; "audio"]
    +:+ categoryText p "technical".
Proof. reflexivity. Qed.

Lemma categoryText_technical p tech :
  objGet "technical" p = Some (JObj tech) → tech ≠ [] →
  objGet "negativeKeywords" tech = None →
  categoryText p "technical" = buildSegment "technical" (JObj tech).
Proof.
  intros Ht Hne Hnk. unfold categoryText. rewrite Ht. simpl. rewrite Hnk. simpl.
  rewrite bool_decide_eq_true_2; [done|]. destruct tech; [done|simpl; lia].
Qed.

Lemma rulesText_list p rules kw kws :
  objGet "rules" p = Some (JObj rules) →
  objGet "negativeKeywords" rules = Some (JArr (kw :: kws)) →
  rulesText p
  = Some (nl +:+ nl +:+ "Negative Keywords: " +:+ join ", " (kw :: kws)).
Proof. intros Hr Hk. unfold rulesText. rewrite Hr. simpl. by rewrite Hk. Qed.

End TextFacts.

Module TextTheorems.
Import Params JsString Studio Text TextFacts.

(** C4, the claim as stated: with a sub-field and negative keywords under
    [technical], the text has neither a technical section nor the
    keywords. *)
Lemma technical_with_keywords_dropped :
  textPrompt technicalWithKeywords
  = Some "Create an image with the following parameters:"
  ∧ ¬ (∃ text, textPrompt technicalWithKeywords = Some text
               ∧ includes "Technical:" text = true
               ∧ includes "blurry" text = true).
Proof.
  split; [by vm_compute|].
  intros (text & Htext & Htech & _). vm_compute in Htext.
  injection Htext as <-. by vm_compute in Htech.
Qed.

(** C4 (as the code renders it): when [technical] holds sub-fields and no
    [negativeKeywords] entry, and [rules.negativeKeywords] is a non-empty
    list, the text consists of the header, the subjects, the six categories
    before [technical], the technical section with its sub-fields, the
    timeline, and last the section [Negative Keywords:] with the list of
    [rules.negativeKeywords] joined by [', ']. *)
Theorem technical_and_rules_sections (st : SceneState)
    (tech rules : obj) (kw : string) (kws : list string) :
  objGet "technical" (params st) = Some (JObj tech) →
  tech ≠ [] →
  objGet "negativeKeywords" tech = None →
  objGet "rules" (params st) = Some (JObj rules) →
  objGet "negativeKeywords" rules = Some (JArr (kw :: kws)) →
  textPrompt st
  = Some (trim (header (promptType st)
                +:+ subjectsText (subjects st)
                +:+ (foldl (λ text category,
                              text +:+ categoryText (params st) category) ""
                       ["directorNotes"; "scene"; "composition"; "camera";
                        "style"; "audio"]
                     +:+ buildSegment "technical" (JObj tech))
                +:+ timelineText (subjects st) (timeline st)
                +:+ (nl +:+ nl +:+ "Negative Keywords: "
                        +:+ join ", " (kw :: kws)))).
Proof.
  intros Ht Hne Hnk Hr Hk. unfold textPrompt.
  assert (existsb (λ kv : string * jval, bool_decide (0 < length (entries kv.2))%nat)
                  (params st) = true) as ->.
  { eapply existsb_elem_of; [exact (objGet_elem_of _ _ _ Ht)|]. simpl.
    apply bool_decide_eq_true_2. destruct tech; [done|simpl; lia]. }
  rewrite andb_false_r. simpl. unfold untrimmedText.
  rewrite (rulesText_list _ _ _ _ Hr Hk). simpl.
  rewrite categoriesText_technical_last.
  by rewrite (categoryText_technical _ _ Ht Hne Hnk).
Qed.

End TextTheorems.

(** * Instances of the theorems on concrete inputs *)

Module Witnesses.
Import Layout Drag Params Studio Text.

Ltac positive_lengths :=
  repeat (constructor; [vm_compute; reflexivity|]); constructor.

Lemma calculateLayout_no_overlap_witness :
  Forall (λ e, start e < end_ e) [e03; e26; e36] ∧ ¬ overlaps e03 e36.
Proof.
  assert (Forall (λ e, start e < end_ e) [e03; e26; e36]) as H by positive_lengths.
  split; [exact H|].
  apply (LayoutTheorems.calculateLayout_no_overlap [e03; e26; e36] H 0 2
           (mkLaidOut e03 0) (mkLaidOut e36 0)); [lia|reflexivity..].
Defined.

Lemma calculateLayout_minimal_witness :
  Forall (λ e, start e < end_ e) [e04; e26]
  ∧ (∃ t, totalLanes (calculateLayout [e04; e26]) ≤ Z.of_nat (depth t [e04; e26]))
  ∧ (∀ k f, validAssignment [e04; e26] k f →
            totalLanes (calculateLayout [e04; e26]) ≤ k).
Proof.
  assert (Forall (λ e, start e < end_ e) [e04; e26]) as H by positive_lengths.
  split; [exact H|]. apply (LayoutTheorems.calculateLayout_minimal [e04; e26] H).
Defined.

Lemma calculateLayout_assigns_lanes_witness :
  ({[ 0%nat := [e26; e04] ]} : Store) !! 0%nat = Some [e26; e04]
  ∧ ∃ σ' r,
      calculateLayoutRef {[ 0%nat := [e26; e04] ]} 0 = Some (σ', r)
      ∧ r = calculateLayout [e26; e04]
      ∧ σ' !! 0%nat = Some [e26; e04]
      ∧ (∀ other, other ∈ dom ({[ 0%nat := [e26; e04] ]} : Store) →
                  σ' !! other = ({[ 0%nat := [e26; e04] ]} : Store) !! other)
      ∧ event <$> layout r ≡ₚ [e26; e04]
      ∧ Forall (λ x, 0 ≤ lane x) (layout r)
      ∧ totalLanes r = from_option (λ m, m + 1) 0 (maxLane (layout r))
      ∧ 0 < totalLanes r.
Proof.
  assert (({[ 0%nat := [e26; e04] ]} : Store) !! 0%nat = Some [e26; e04]) as H
    by reflexivity.
  split; [exact H|].
  exact (LayoutTheorems.calculateLayout_assigns_lanes _ 0%nat [e26; e04] H).
Defined.

Lemma handleMouseMove_in_bounds_witness :
  (∀ rect, Some (mkRect 0 (100 # 1)) = Some rect → (0 < width rect)%Q)
  ∧ (∀ d current,
       Some drag25 = Some d → findEvent (drag_id d) [e25] = Some current →
       0 ≤ start current ∧ start current < end_ current ∧ end_ current ≤ 10)
  ∧ handleMouseMove (Some drag25) (Some (mkRect 0 (100 # 1))) (90 # 1) [e25] 10
    = Some (moved e25 7 10)
  ∧ ∃ d current,
      Some drag25 = Some d
      ∧ findEvent (drag_id d) [e25] = Some current
      ∧ moved e25 7 10 = moved current 7 10
      ∧ 0 ≤ 7
      ∧ 7 + (end_ current - start current) ≤ 10
      ∧ 10 - 7 = end_ current - start current.
Proof.
  assert (∀ rect, Some (mkRect 0 (100 # 1)) = Some rect → (0 < width rect)%Q) as Hw.
  { intros rect [= <-]. reflexivity. }
  assert (∀ d current,
            Some drag25 = Some d → findEvent (drag_id d) [e25] = Some current →
            0 ≤ start current ∧ start current < end_ current ∧ end_ current ≤ 10)
    as He.
  { intros d current [= <-] [= <-]. simpl. lia. }
  assert (handleMouseMove (Some drag25) (Some (mkRect 0 (100 # 1))) (90 # 1) [e25] 10
          = Some (moved e25 7 10)) as Hm by (vm_compute; reflexivity).
  split_and!; [exact Hw|exact He|exact Hm|].
  exact (DragTheorems.handleMouseMove_in_bounds _ _ _ _ _ _ Hw He Hm).
Defined.

Lemma drag_scenario_clamps_to_7_witness :
  (((90 # 1) - left (mkRect 0 (100 # 1))) / width (mkRect 0 (100 # 1)) == 9 # 10)%Q
  ∧ clampedStartOf drag25 (mkRect 0 (100 # 1)) (90 # 1) 10 e25 = 7.
Proof.
  assert (((90 # 1) - left (mkRect 0 (100 # 1))) / width (mkRect 0 (100 # 1))
          == 9 # 10)%Q as Hp by (vm_compute; reflexivity).
  split; [exact Hp|].
  exact (proj1 (proj2 (DragTheorems.drag_scenario_clamps_to_7 _ _ Hp))).
Defined.

Lemma handleMouseMove_long_event_witness :
  (0 < width (mkRect 0 (100 # 1)))%Q
  ∧ findEvent (drag_id drag25) [e2_20] = Some e2_20
  ∧ 10 ≤ end_ e2_20 - start e2_20
  ∧ clampedStartOf drag25 (mkRect 0 (100 # 1)) (90 # 1) 10 e2_20 = 0
  ∧ handleMouseMove (Some drag25) (Some (mkRect 0 (100 # 1))) (90 # 1) [e2_20] 10
    = Some (moved e2_20 0 18).
Proof.
  assert (0 < width (mkRect 0 (100 # 1)))%Q as Hw by reflexivity.
  assert (findEvent (drag_id drag25) [e2_20] = Some e2_20) as Hf by reflexivity.
  assert (10 ≤ end_ e2_20 - start e2_20) as Hl by (simpl; lia).
  split_and!; [exact Hw|exact Hf|exact Hl|..].
  - exact (proj1 (DragTheorems.handleMouseMove_long_event
                    drag25 _ (90 # 1) [e2_20] 10 e2_20 Hw Hf Hl)).
  - exact (proj2 (DragTheorems.handleMouseMove_long_event
                    drag25 _ (90 # 1) [e2_20] 10 e2_20 Hw Hf Hl)).
Defined.

Lemma handleParamChange_empty_deletes_witness :
  childOf "camera" [("camera", JObj [("angle", JArr ["low"])])]
  = JObj [("angle", JArr ["low"])]
  ∧ Forall (λ kv : string * jval, kv.1 = "angle") [("angle", JArr ["low"])]
  ∧ ∃ p', handleParamChange "camera.angle" (JArr [])
            [("camera", JObj [("angle", JArr ["low"])])] = Some p'
          ∧ objGet "camera" p' = Some (JObj []).
Proof.
  assert (childOf "camera" [("camera", JObj [("angle", JArr ["low"])])]
          = JObj [("angle", JArr ["low"])]) as Hc by reflexivity.
  assert (Forall (λ kv : string * jval, kv.1 = "angle") [("angle", JArr ["low"])])
    as Ha by (constructor; [reflexivity|constructor]).
  split_and!; [exact Hc|exact Ha|].
  destruct (proj1 ParamsTheorems.handleParamChange_empty_deletes _ _ Hc)
    as (p' & Hrun & _ & _ & _ & _ & Hempty).
  exists p'. split; [exact Hrun|exact (Hempty Ha)].
Defined.

Lemma removeSubject_cascade_witness :
  (∃ s, s ∈ subjects twoSubjects ∧ subj_id s = "s1")
  ∧ subjects (removeSubject "s1" twoSubjects) = [mkSubject "s2" "villain" []]
  ∧ timeline (removeSubject "s1" twoSubjects)
    = [mkEvent "b" "villain.pose" "subjects.pose" "pose" (Some "s2") 1 4 "sit";
       mkEvent "c" "action" "scene.action" "action" None 2 5 "rain"].
Proof.
  assert (∃ s, s ∈ subjects twoSubjects ∧ subj_id s = "s1") as H.
  { exists (mkSubject "s1" "hero" []). split; [left|reflexivity]. }
  split; [exact H|].
  destruct (StudioTheorems.removeSubject_cascade "s1" twoSubjects H)
    as (Hs & Ht & _).
  split; [rewrite Hs|rewrite Ht]; reflexivity.
Defined.

Lemma technical_and_rules_sections_witness :
  objGet "technical" (params technicalAndRules)
  = Some (JObj [("duration", JArr ["5s"])])
  ∧ objGet "rules" (params technicalAndRules)
    = Some (JObj [("negativeKeywords", JArr ["blurry"; "text"])])
  ∧ textPrompt technicalAndRules
    = Some ("Create a video with the following parameters:" +:+ nl +:+ nl
            +:+ "Technical:" +:+ nl +:+ "  - duration: 5s" +:+ nl +:+ nl
            +:+ "Negative Keywords: blurry, text").
Proof.
  assert (objGet "technical" (params technicalAndRules)
          = Some (JObj [("duration", JArr ["5s"])])) as Ht by reflexivity.
  assert (objGet "rules" (params technicalAndRules)
          = Some (JObj [("negativeKeywords", JArr ["blurry"; "text"])])) as Hr
    by reflexivity.
  split_and!; [exact Ht|exact Hr|].
  rewrite (TextTheorems.technical_and_rules_sections technicalAndRules
             [("duration", JArr ["5s"])]
             [("negativeKeywords", JArr ["blurry"; "text"])] "blurry" ["text"]
             Ht ltac:(discriminate) eq_refl Hr eq_refl).
  vm_compute. reflexivity.
Defined.

Lemma image_has_no_timeline_witness :
  ∃ st, reachable st
        ∧ promptType st = Video
        ∧ length (timeline st) = 1%nat
        ∧ ∃ st1, handle (SetPromptType Image) st = Some st1
                 ∧ promptType (runEffects st st1) = Image
                 ∧ timeline (runEffects st st1) = [].
Proof.
  destruct (StudioFacts.runActions_reachable (initial "0") sessionActions)
    as (st & Hrun & Hreach).
  - exists "0". apply rtc_refl.
  - vm_compute. repeat split; try reflexivity; try discriminate.
  - exists st. vm_compute in Hrun. injection Hrun as <-.
    split_and!; [exact Hreach|reflexivity|reflexivity|].
    eexists. split; [reflexivity|].
    exact (proj1 (proj2 StudioTheorems.image_has_no_timeline) _ _ Hreach eq_refl).
Defined.

End Witnesses.

(** * Further properties of the interval layout *)

Module LayoutMore.
Import Layout LayoutFacts LayoutInv.

#[local] Arguments placeEvent : simpl never.

Lemma layout_of_calculateLayout allEvents :
  layout (calculateLayout allEvents) = (placeAll (sort byStart allEvents)).2.
Proof. unfold calculateLayout. by destruct (placeAll _). Qed.

Lemma totalLanes_of_calculateLayout allEvents :
  totalLanes (calculateLayout allEvents)
  = Z.of_nat (length (placeAll (sort byStart allEvents)).1).
Proof. unfold calculateLayout. by destruct (placeAll _). Qed.

Lemma placeAll_laneBound evs lanes layout :
  Forall (λ e, start e ≤ end_ e) evs →
  laneBound lanes layout → laneDisjoint layout →
  laneBound (foldl placeEvent (lanes, layout) evs).1
            (foldl placeEvent (lanes, layout) evs).2.
Proof.
  revert lanes layout. induction evs as [|ev evs IH]; intros lanes layout Hevs Hb Hd.
  - done.
  - apply Forall_cons in Hevs as [Hev Hevs]. simpl.
    destruct (placeEvent (lanes, layout) ev) as [lanes' layout'] eqn:Hp.
    destruct (placeEvent_disjoint _ _ _ _ _ Hev Hb Hd Hp) as [Hb' Hd'].
    by apply IH.
Qed.

(** The lanes of the layout are a valid assignment for its events. *)
Lemma layout_is_valid evs :
  Forall (λ e, start e ≤ end_ e) evs →
  validAssignment (event <$> (placeAll evs).2)
                  (Z.of_nat (length (placeAll evs).1))
                  (laneAt (placeAll evs).2).
Proof.
  intros Hevs.
  assert (lanesUsed (placeAll evs).1 (placeAll evs).2) as [Hin _].
  { apply placeAll_lanesUsed. split.
    - intros x Hx. by apply elem_of_nil in Hx.
    - simpl. intros i Hi. lia. }
  assert (laneDisjoint (placeAll evs).2) as Hd.
  { apply placeAll_disjoint; [done| |].
    - intros x Hx. by apply elem_of_nil in Hx.
    - intros i j x y _ Hi. by rewrite lookup_nil in Hi. }
  split_and!.
  - lia.
  - intros i Hi. rewrite length_fmap in Hi.
    destruct (lookup_lt_is_Some_2 _ _ Hi) as [x Hx].
    unfold laneAt. rewrite Hx. simpl.
    apply Hin. by eapply list_elem_of_lookup_2.
  - intros i j a b Hij Hi Hj Ho.
    apply list_lookup_fmap_Some in Hi as (x & -> & Hx).
    apply list_lookup_fmap_Some in Hj as (y & -> & Hy).
    unfold laneAt. rewrite Hx, Hy. simpl. intros Heq.
    by apply (Hd i j x y Hij Hx Hy Heq).
Qed.

Lemma depth_le_totalLanes t allEvents :
  Forall (λ e, start e < end_ e) allEvents →
  Z.of_nat (depth t allEvents) ≤ totalLanes (calculateLayout allEvents).
Proof.
  intros Hevs. rewrite totalLanes_of_calculateLayout.
  assert (Forall (λ e, start e ≤ end_ e) (sort byStart allEvents)) as Hle.
  { rewrite sort_perm. eapply Forall_impl; [exact Hevs|]. simpl. intros; lia. }
  pose proof (depth_le_valid t _ _ _ (layout_is_valid _ Hle)) as Hd.
  unfold placeAll in Hd at 1. rewrite placeAll_events in Hd. simpl in Hd.
  by rewrite (depth_perm _ _ _ (sort_perm _ _)) in Hd.
Qed.

Lemma totalLanes_le_depth allEvents :
  Forall (λ e, start e < end_ e) allEvents →
  ∃ t, totalLanes (calculateLayout allEvents) ≤ Z.of_nat (depth t allEvents).
Proof.
  intros Hevs. rewrite totalLanes_of_calculateLayout.
  destruct (placeAll_depth (sort byStart allEvents) [] [] []) as [t Ht].
  - by rewrite sort_perm.
  - apply sort_sorted.
  - constructor.
  - exists [], []. by split.
  - exists 0. simpl. lia.
  - exists t. simpl in Ht. rewrite (depth_perm _ _ _ (sort_perm _ _)) in Ht.
    unfold placeAll. lia.
Qed.

(** X1: with [start < end] for every event, no instant is covered by more
    events than there are lanes, and some instant is covered by exactly
    [totalLanes] events: the lane count is the peak number of events
    running at the same time. *)
Theorem totalLanes_is_peak_depth (allEvents : list TimelineEvent) :
  Forall (λ e, start e < end_ e) allEvents →
  (∀ t, Z.of_nat (depth t allEvents) ≤ totalLanes (calculateLayout allEvents))
  ∧ (∃ t, Z.of_nat (depth t allEvents) = totalLanes (calculateLayout allEvents)).
Proof.
  intros Hevs. split.
  - intros t. by apply depth_le_totalLanes.
  - destruct (totalLanes_le_depth allEvents Hevs) as [t Ht].
    exists t. pose proof (depth_le_totalLanes t allEvents Hevs). lia.
Qed.

(** X2: events that all cover one instant get a lane each: [totalLanes] is
    the number of events. *)
Theorem mutually_overlapping_lanes (allEvents : list TimelineEvent) (t : Z) :
  Forall (covers t) allEvents →
  totalLanes (calculateLayout allEvents) = Z.of_nat (length allEvents).
Proof.
  intros Hcov.
  assert (Forall (λ e, start e < end_ e) allEvents) as Hevs.
  { eapply Forall_impl; [exact Hcov|]. unfold covers. simpl. intros; lia. }
  pose proof (depth_le_totalLanes t allEvents Hevs) as Hlow.
  rewrite (depth_all _ _ Hcov) in Hlow.
  destruct (totalLanes_le_depth allEvents Hevs) as [t' Ht'].
  assert (depth t' allEvents ≤ length allEvents)%nat by apply length_filter.
  lia.
Qed.

(** X3: events of which no two overlap share the single lane [0]. *)
Theorem disjoint_events_one_lane (allEvents : list TimelineEvent) :
  Forall (λ e, start e < end_ e) allEvents →
  pairwiseDisjoint allEvents →
  allEvents ≠ [] →
  totalLanes (calculateLayout allEvents) = 1
  ∧ Forall (λ x, lane x = 0) (layout (calculateLayout allEvents)).
Proof.
  intros Hevs Hdis Hne.
  assert (validAssignment allEvents 1 (λ _, 0)) as Hvalid.
  { split_and!; [lia|intros; lia|]. intros i j a b Hij Hi Hj Ho.
    by destruct (Hdis i j a b). }
  destruct (totalLanes_le_depth allEvents Hevs) as [t Ht].
  pose proof (depth_le_valid t _ _ _ Hvalid) as Hone.
  assert (lanesUsed (placeAll (sort byStart allEvents)).1
                    (placeAll (sort byStart allEvents)).2) as [Hin _].
  { apply placeAll_lanesUsed. split.
    - intros x Hx. by apply elem_of_nil in Hx.
    - simpl. intros i Hi. lia. }
  assert (0 < totalLanes (calculateLayout allEvents)) as Hpos.
  { rewrite totalLanes_of_calculateLayout.
    assert (length (placeAll (sort byStart allEvents)).2 = length allEvents) as Hlen.
    { rewrite <- (length_fmap event). unfold placeAll. rewrite placeAll_events.
      simpl. by rewrite sort_perm. }
    destruct allEvents as [|e evs]; [done|].
    destruct (lookup_lt_is_Some_2 (placeAll (sort byStart (e :: evs))).2 0) as [x Hx];
      [rewrite Hlen; simpl; lia|].
    apply list_elem_of_lookup_2 in Hx. specialize (Hin x Hx). lia. }
  split; [lia|].
  rewrite layout_of_calculateLayout. apply Forall_forall. intros x Hx.
  specialize (Hin x Hx). rewrite totalLanes_of_calculateLayout in Ht. lia.
Qed.

Lemma scanLanes_least lanes i s j :
  scanLanes lanes i s = Some j →
  ∀ k laneEnd, lanes !! k = Some laneEnd → (i + k < j)%nat → s < laneEnd.
Proof.
  revert i. induction lanes as [|x lanes IH]; intros i; simpl; [done|].
  case_decide as Hx.
  - intros [= <-] k le _ Hk. lia.
  - intros Hscan [|k] le Hk Hlt; simpl in Hk.
    + injection Hk as <-. lia.
    + apply (IH (S i) Hscan k le Hk). lia.
Qed.

Lemma placeEvent_appends lanes layout ev :
  ∃ l, (placeEvent (lanes, layout) ev).2 = layout ++ [mkLaidOut ev l].
Proof. unfold placeEvent. destruct (scanLanes _ _ _); by eexists. Qed.

Lemma firstFit_snoc layout x :
  firstFit layout →
  (∀ j, 0 ≤ j < lane x →
     ∃ y, y ∈ layout ∧ lane y = j ∧ overlaps (event y) (event x)) →
  firstFit (layout ++ [x]).
Proof.
  intros Hff Hx n z Hn j Hj.
  apply lookup_app_Some in Hn as [Hn|[Hge Hn]].
  - destruct (Hff n z Hn j Hj) as (m & y & Hm & Hy & Hl & Ho).
    exists m, y. split_and!; [done| |done|done]. by apply lookup_app_l_Some.
  - apply list_lookup_singleton_Some in Hn as [Hn <-].
    destruct (Hx j Hj) as (y & (m & Hm)%list_elem_of_lookup & Hl & Ho).
    exists m, y. split_and!; [|by apply lookup_app_l_Some|done|done].
    apply lookup_lt_Some in Hm. lia.
Qed.

Lemma placeEvent_firstFit lanes layout ev :
  start ev < end_ ev →
  Forall (λ y, start (event y) ≤ start ev) layout →
  lanesLast lanes layout → firstFit layout →
  lanesLast (placeEvent (lanes, layout) ev).1 (placeEvent (lanes, layout) ev).2
  ∧ firstFit (placeEvent (lanes, layout) ev).2.
Proof.
  intros Hev Hsorted Hlast Hff.
  assert (∀ j' laneEnd, lanes !! j' = Some laneEnd → start ev < laneEnd →
            ∃ y, y ∈ layout ∧ lane y = Z.of_nat j' ∧ overlaps (event y) ev) as Hbusy.
  { intros j' le Hj Hlt. destruct (Hlast j' le Hj) as (y & Hy & Hl & He).
    exists y. split_and!; [done|done|]. unfold overlaps.
    pose proof (proj1 (Forall_forall _ _) Hsorted y Hy). simpl in *. lia. }
  unfold placeEvent.
  destruct (scanLanes lanes 0 (start ev)) as [k|] eqn:Hscan; cbn [fst snd].
  - pose proof (scanLanes_least _ _ _ _ Hscan) as Hleast.
    apply scanLanes_Some in Hscan as (k' & le & -> & Hk & Hle). simpl in *.
    split.
    + intros i lei Hi. destruct (decide (i = k')) as [->|Hne].
      * rewrite list_lookup_insert_eq in Hi by (by eapply lookup_lt_Some).
        injection Hi as <-. exists (mkLaidOut ev (Z.of_nat k')).
        split; [|done]. apply elem_of_app. right. by apply list_elem_of_singleton.
      * rewrite list_lookup_insert_ne in Hi by done.
        destruct (Hlast i lei Hi) as (y & Hy & Hl & He).
        exists y. split_and!; [|done|done]. apply elem_of_app. by left.
    + apply firstFit_snoc; [done|]. simpl. intros j Hj.
      destruct (lookup_lt_is_Some_2 lanes (Z.to_nat j)) as [lej Hlej].
      { apply lookup_lt_Some in Hk. lia. }
      destruct (Hbusy (Z.to_nat j) lej Hlej) as (y & Hy & Hl & Ho).
      { apply (Hleast (Z.to_nat j) lej Hlej). lia. }
      exists y. split_and!; [done|lia|done].
  - apply scanLanes_None in Hscan. split.
    + intros i lei Hi. apply lookup_app_Some in Hi as [Hi|[Hge Hi]].
      * destruct (Hlast i lei Hi) as (y & Hy & Hl & He).
        exists y. split_and!; [|done|done]. apply elem_of_app. by left.
      * apply list_lookup_singleton_Some in Hi as [Hi <-].
        eexists. split; [apply elem_of_app; right; by apply list_elem_of_singleton|].
        simpl. rewrite length_app. simpl. split; [lia|done].
    + apply firstFit_snoc; [done|]. simpl. rewrite length_app. simpl. intros j Hj.
      destruct (lookup_lt_is_Some_2 lanes (Z.to_nat j)) as [lej Hlej]; [lia|].
      destruct (Hbusy (Z.to_nat j) lej Hlej) as (y & Hy & Hl & Ho).
      { eapply (proj1 (Forall_forall _ _) Hscan). by eapply list_elem_of_lookup_2. }
      exists y. split_and!; [done|lia|done].
Qed.

Lemma placeAll_firstFit evs lanes layout :
  Forall (λ e, start e < end_ e) evs →
  StronglySorted startLe evs →
  Forall (λ y, Forall (λ e, start (event y) ≤ start e) evs) layout →
  lanesLast lanes layout → firstFit layout →
  firstFit (foldl placeEvent (lanes, layout) evs).2.
Proof.
  revert lanes layout.
  induction evs as [|ev evs IH]; intros lanes layout Hpos Hsort Hdone Hlast Hff.
  - done.
  - apply Forall_cons in Hpos as [Hev Hpos].
    apply StronglySorted_inv in Hsort as [Hsort Hhead].
    assert (Forall (λ y, start (event y) ≤ start ev) layout) as Hle.
    { eapply Forall_impl; [exact Hdone|]. simpl. intros y Hy.
      by apply Forall_cons in Hy as [? _]. }
    destruct (placeEvent_firstFit lanes layout ev Hev Hle Hlast Hff) as [Hlast' Hff'].
    destruct (placeEvent_appends lanes layout ev) as [l Happ].
    simpl. destruct (placeEvent (lanes, layout) ev) as [lanes' layout'].
    simpl in *. subst layout'. apply IH; [done|done| |done|done].
    apply Forall_app. split.
    + eapply Forall_impl; [exact Hdone|]. simpl. intros y Hy.
      by apply Forall_cons in Hy as [_ ?].
    + constructor; [|constructor]. exact Hhead.
Qed.

(** X4: first fit.  With [start < end] for every event, below the lane of
    an entry every lane holds an entry placed earlier that overlaps it: no
    event sits in a higher lane than the events before it force. *)
Theorem calculateLayout_first_fit (allEvents : list TimelineEvent) :
  Forall (λ e, start e < end_ e) allEvents →
  ∀ n x, layout (calculateLayout allEvents) !! n = Some x →
    ∀ j, 0 ≤ j < lane x →
      ∃ m y, (m < n)%nat
             ∧ layout (calculateLayout allEvents) !! m = Some y
             ∧ lane y = j
             ∧ overlaps (event y) (event x).
Proof.
  intros Hevs. rewrite layout_of_calculateLayout.
  apply (placeAll_firstFit (sort byStart allEvents) [] []).
  - by rewrite sort_perm.
  - apply sort_sorted.
  - constructor.
  - intros i le Hi. by rewrite lookup_nil in Hi.
  - intros n x Hn. by rewrite lookup_nil in Hn.
Qed.

Lemma insertSorted_filter_start s x l :
  filter (λ e, start e = s) (insertSorted byStart x l)
  = filter (λ e, start e = s) (x :: l).
Proof.
  induction l as [|y l IH]; simpl; [done|].
  unfold byStart at 1. case_decide as Hc; [done|].
  rewrite (filter_cons _ y), IH, !(filter_cons _ x), (filter_cons _ y).
  repeat case_decide; try done. lia.
Qed.

Lemma sort_filter_start s l :
  filter (λ e, start e = s) (sort byStart l) = filter (λ e, start e = s) l.
Proof.
  induction l as [|x l IH]; simpl; [done|].
  fold (sort byStart l). rewrite insertSorted_filter_start, !(filter_cons _ x), IH.
  done.
Qed.

(** X5: the layout lists the events in ascending order of [start], and
    events with the same [start] in their input order. *)
Theorem calculateLayout_order (allEvents : list TimelineEvent) :
  StronglySorted startLe (event <$> layout (calculateLayout allEvents))
  ∧ ∀ s, filter (λ e, start e = s) (event <$> layout (calculateLayout allEvents))
         = filter (λ e, start e = s) allEvents.
Proof.
  rewrite layout_of_calculateLayout. unfold placeAll. rewrite placeAll_events. simpl.
  split; [apply sort_sorted|]. intros s. apply sort_filter_start.
Qed.

End LayoutMore.

(** * Further properties of the drag and of the studio state *)

Module StudioMore.
Import Drag Params Studio StudioFacts StudioInv DragFacts.

Lemma findEvent_spec id events ev :
  findEvent id events = Some ev ↔
  ∃ i, events !! i = Some ev ∧ ev_id ev = id
       ∧ ∀ j y, events !! j = Some y → (j < i)%nat → ev_id y ≠ id.
Proof.
  unfold findEvent. split.
  - destruct (list_find _ events) as [[i e]|] eqn:Hfind; [|done].
    intros [= <-]. apply list_find_Some in Hfind as (Hi & Hid & Hleast).
    exists i. by split_and!.
  - intros (i & Hi & Hid & Hleast).
    assert (list_find (λ ev, ev_id ev = id) events = Some (i, ev)) as ->; [|done].
    apply list_find_Some. by split_and!.
Qed.

Lemma findEvent_replaced id events current updated :
  findEvent id events = Some current → ev_id updated = id →
  findEvent id ((λ e, if decide (ev_id e = ev_id updated) then updated else e)
                  <$> events)
  = Some updated.
Proof.
  intros (i & Hi & Hid & Hleast)%findEvent_spec Hu. apply findEvent_spec.
  exists i. split_and!; [|done|].
  - rewrite list_lookup_fmap, Hi. simpl. rewrite decide_True; [done|congruence].
  - intros j y Hj Hlt. rewrite list_lookup_fmap in Hj.
    destruct (events !! j) as [e|] eqn:He; [|done]. simpl in Hj.
    pose proof (Hleast j e He Hlt) as Hne.
    rewrite decide_False in Hj by congruence. by injection Hj as <-.
Qed.

Lemma clampedStartOf_moved d rect clientX duration current c :
  clampedStartOf d rect clientX duration
    (moved current c (c + (end_ current - start current)))
  = clampedStartOf d rect clientX duration current.
Proof. unfold clampedStartOf. simpl. f_equal. lia. Qed.

(** X6: a second pointer move at the same position changes nothing: after
    the update of the first move the handler finds the event where the
    pointer puts it and emits no further update. *)
Theorem mouse_move_twice (timelineRect : Rect) (clientX : Q) (st st1 : SceneState) :
  handle (MouseMove timelineRect clientX) st = Some st1 →
  handle (MouseMove timelineRect clientX) st1 = Some st1.
Proof.
  simpl.
  destruct (handleMouseMove (draggingEvent st) _ _ (timeline st) _) as [updated|] eqn:Hm.
  - intros [= <-]. simpl.
    apply handleMouseMove_Some in Hm
      as (d & rect & current & Hd & [= <-] & Hfind & Hne & ->).
    rewrite Hd. unfold handleMouseMove.
    rewrite (findEvent_replaced _ _ _ _ Hfind);
      [|simpl; by apply findEvent_Some in Hfind as [_ ?]].
    cbv beta iota zeta. rewrite clampedStartOf_moved.
    by rewrite decide_False by (simpl; by intros []).
  - intros [= <-]. by rewrite Hm.
Qed.

(** X7: a pointer move keeps the number of events, their order and their
    ids, leaves every event with another id than the dragged one as it is,
    and changes nothing but the timeline. *)
Theorem mouse_move_frame (timelineRect : Rect) (clientX : Q) (st st1 : SceneState) :
  handle (MouseMove timelineRect clientX) st = Some st1 →
  ev_id <$> timeline st1 = ev_id <$> timeline st
  ∧ (∀ i e, timeline st !! i = Some e →
            (∀ d, draggingEvent st = Some d → ev_id e ≠ drag_id d) →
            timeline st1 !! i = Some e)
  ∧ promptType st1 = promptType st
  ∧ subjects st1 = subjects st
  ∧ params st1 = params st
  ∧ animatedParams st1 = animatedParams st
  ∧ draggingEvent st1 = draggingEvent st.
Proof.
  simpl.
  destruct (handleMouseMove (draggingEvent st) _ _ (timeline st) _) as [updated|] eqn:Hm;
    intros [= <-]; [|done].
  apply handleMouseMove_Some in Hm
    as (d & rect & current & Hd & _ & Hfind & _ & Hu).
  assert (ev_id updated = drag_id d) as Hid.
  { rewrite Hu. simpl. by apply findEvent_Some in Hfind as [_ ?]. }
  simpl. split_and!; try done.
  - rewrite <- list_fmap_compose. apply list_fmap_ext. intros i e _. simpl.
    by case_decide.
  - intros i e Hi Hother. rewrite list_lookup_fmap, Hi. simpl.
    rewrite decide_False; [done|]. rewrite Hid. by apply Hother.
Qed.

Lemma Forall_filter_keep {A} (P Q : A → Prop) `{!∀ x, Decision (Q x)} (l : list A) :
  Forall P l → Forall P (filter Q l).
Proof.
  rewrite !Forall_forall. intros Hall x [_ Hx]%list_elem_of_filter. by apply Hall.
Qed.

Lemma handle_wellFormed a st st1 :
  Forall eventWellFormed (timeline st) →
  enabled a st → handle a st = Some st1 →
  Forall eventWellFormed (timeline st1).
Proof.
  intros Hwf Hen Hh. destruct a; simpl in *.
  - by injection Hh as <-.
  - injection Hh as <-. constructor.
  - by injection Hh as <-.
  - by injection Hh as <-.
  - injection Hh as <-. unfold removeSubject.
    destruct (list_find _ _) as [[? ?]|]; simpl; [|done]. by apply Forall_filter_keep.
  - destruct (handleParamChange _ _ _); [|done]. by injection Hh as <-.
  - by injection Hh as <-.
  - destruct Hen as (_ & _ & _ & Hs & He).
    unfold handleAddToTimeline, addTimelineEvent in Hh.
    destruct (currentValue _ _ _ _) as [text|[|first items]|]; try done;
      injection Hh as <-; try done; case_decide; try done; simpl;
      (apply Forall_app; split; [done|]); (constructor; [|constructor]);
      unfold eventWellFormed; simpl; split_and!; try done; lia.
  - injection Hh as <-. simpl. by apply Forall_filter_keep.
  - by injection Hh as <-.
  - destruct (handleMouseMove _ _ _ _ _) as [updated|] eqn:Hm;
      injection Hh as <-; [|done].
    apply handleMouseMove_Some in Hm
      as (d & rect & current & _ & _ & [Hin _]%findEvent_Some & _ & Hu).
    pose proof (proj1 (Forall_forall _ _) Hwf current Hin) as (H0 & Hlt & Hv).
    simpl. apply Forall_fmap. eapply Forall_impl; [exact Hwf|]. simpl.
    intros e He. case_decide; [|done]. rewrite Hu.
    unfold eventWellFormed, clampedStartOf. simpl.
    pose proof (clampStart_lower
      (candidateStart (percentOf (clientX - left rect) rect) (duration (params st)) d)
      (duration (params st)) (end_ current - start current)).
    split_and!; [lia|lia|done].
  - by injection Hh as <-.
Qed.

Lemma reachable_wellFormed st :
  reachable st → Forall eventWellFormed (timeline st).
Proof.
  intros [now Hrtc]. revert st Hrtc.
  apply (rtc_ind_r (λ st, Forall eventWellFormed (timeline st))).
  - constructor.
  - intros st st' _ (a & st1 & Hen & Hh & ->) Hwf.
    rewrite runEffects_timeline.
    repeat case_decide; [|constructor|]; by eapply handle_wellFormed.
Qed.

(** X8: in every reachable state each event of the timeline has
    [0 <= start < end] and a non-empty value. *)
Theorem reachable_events_wellFormed (st : SceneState) (e : TimelineEvent) :
  reachable st → e ∈ timeline st →
  0 ≤ start e ∧ start e < end_ e ∧ value e ≠ "".
Proof.
  intros Hreach He.
  pose proof (reachable_wellFormed st Hreach) as Hwf.
  exact (proj1 (Forall_forall _ _) Hwf e He).
Qed.

(** X9: removing a subject leaves no event that names a missing subject,
    when there was none before. *)
Theorem removeSubject_no_dangling (id : string) (st : SceneState) :
  noDangling st → noDangling (removeSubject id st).
Proof.
  intros Hnd. unfold removeSubject.
  destruct (list_find _ (subjects st)) as [[i found]|] eqn:Hfind; [|done].
  apply list_find_Some in Hfind as (_ & Hfound & _).
  intros e sid. simpl. rewrite Hfound.
  intros [Hne He]%list_elem_of_filter Hsid.
  destruct (Hnd e sid He Hsid) as (s & Hs & Hid).
  exists s. split; [|done]. apply list_elem_of_filter. split; [|done].
  intros Heq. apply Hne. congruence.
Qed.

End StudioMore.

(** * Properties of the range selector *)

Module ScrubberFacts.
Import Scrubber.

Lemma scrubberStep_onBar duration st st' :
  selectionOnBar duration st → scrubberStep duration st st' →
  selectionOnBar duration st'.
Proof.
  intros Hinv (ev & Hen & ->). unfold selectionOnBar in *.
  destruct ev as [sec|sec| | |]; simpl in *.
  - done.
  - unfold handleMouseEnter.
    destruct st as [[s|] [e|] sel]; simpl in *; try done;
      destruct sel; simpl; try done.
    split; [by destruct Hinv|done].
  - done.
  - done.
  - unfold handleAddClick. by destruct st as [[s|] [e|] sel].
Qed.

Lemma scrubberReachable_onBar duration st :
  scrubberReachable duration st → selectionOnBar duration st.
Proof.
  revert st. apply (rtc_ind_r (selectionOnBar duration)); [done|].
  intros st st' _ Hstep Hinv. by eapply scrubberStep_onBar.
Qed.

(** X10: while the duration stays the same, a range that the selector
    passes to [onAdd] has [0 <= start < end <= duration]; the cells that
    were highlighted are exactly the seconds [start <= sec < end]; and the
    selection is cleared. *)
Theorem scrubber_adds_valid_range (duration : Z) (st st' : ScrubberState)
    (finalStart finalEnd : Z) :
  scrubberReachable duration st →
  handleAddClick st = (Some (finalStart, finalEnd), st') →
  0 ≤ finalStart ∧ finalStart < finalEnd ∧ finalEnd ≤ duration
  ∧ (∀ sec, getIsSelected st sec = true ↔ finalStart ≤ sec < finalEnd)
  ∧ st' = initialScrubber.
Proof.
  intros Hinv%scrubberReachable_onBar. unfold handleAddClick, selectionOnBar in *.
  unfold getIsSelected.
  destruct st as [[s|] [e|] sel]; simpl in *; try done.
  intros [= <- <- <-]. split_and!; [lia|lia|lia| |done].
  intros sec. rewrite andb_true_iff, !bool_decide_eq_true. lia.
Qed.

End ScrubberFacts.

(** * Properties of the chip input *)

Module ChipFacts.
Import JsString ChipInput.

Lemma trimEnd_idem s : trimEnd (trimEnd s) = trimEnd s.
Proof.
  induction s as [|c s IH]; simpl; [done|].
  destruct (trimEnd s) as [|c' t] eqn:Ht.
  - destruct (isSpace c) eqn:Hc; simpl; [done|]. by rewrite Hc.
  - simpl in *. by rewrite IH.
Qed.

Lemma skipSpaces_head s :
  skipSpaces s = "" ∨ ∃ c t, skipSpaces s = String c t ∧ isSpace c = false.
Proof.
  induction s as [|c s IH]; simpl; [by left|].
  destruct (isSpace c) eqn:Hc; [done|]. right. by exists c, s.
Qed.

Lemma trimEnd_head c t :
  isSpace c = false → ∃ t', trimEnd (String c t) = String c t'.
Proof.
  intros Hc. simpl. destruct (trimEnd t); [rewrite Hc|]; by eexists.
Qed.

Lemma trim_idem s : trim (trim s) = trim s.
Proof.
  unfold trim. destruct (skipSpaces_head s) as [->|(c & t & -> & Hc)]; [done|].
  destruct (trimEnd_head c t Hc) as [t' Ht]. rewrite Ht. simpl skipSpaces.
  rewrite Hc, <- Ht. apply trimEnd_idem.
Qed.

Lemma handleRemove_wellFormed value val :
  chipsWellFormed value → chipsWellFormed (handleRemove value val).
Proof.
  intros [Hnd Hall]. split.
  - by apply NoDup_filter.
  - unfold handleRemove. rewrite Forall_forall in *.
    intros v [_ Hv]%list_elem_of_filter. by apply Hall.
Qed.

Lemma handleAdd_wellFormed value val value' :
  chipsWellFormed value → handleAdd value val = Some value' →
  chipsWellFormed value'.
Proof.
  intros [Hnd Hall]. unfold handleAdd. case_decide as Hc; [|done].
  intros [= <-]. destruct Hc as [Hne Hnew]. split.
  - apply NoDup_app. split_and!; [done| |apply NoDup_singleton].
    intros v Hv ->%list_elem_of_singleton. done.
  - apply Forall_app. split; [done|]. constructor; [|constructor].
    split; [done|apply trim_idem].
Qed.

(** X11: the three handlers of the chip input keep the chips distinct,
    non-empty and trimmed; what [handleAdd] appends is the trimmed input,
    and what [handleRemove] returns holds the removed chip no more. *)
Theorem chip_handlers_keep_wellFormed (value : list string) (val : string) :
  chipsWellFormed value →
  (∀ value', handleAdd value val = Some value' →
             value' = value ++ [trim val] ∧ chipsWellFormed value')
  ∧ ((val ∉ handleRemove value val)
     ∧ chipsWellFormed (handleRemove value val))
  ∧ (∀ value', togglePreset value val = Some value' → chipsWellFormed value').
Proof.
  intros Hwf. split_and!.
  - intros value' Hadd. split; [|by eapply handleAdd_wellFormed].
    unfold handleAdd in Hadd. case_decide; [|done]. by injection Hadd as <-.
  - unfold handleRemove. intros [Hne _]%list_elem_of_filter. done.
  - by apply handleRemove_wellFormed.
  - unfold togglePreset. intros value'. case_decide.
    + intros [= <-]. by apply handleRemove_wellFormed.
    + by apply handleAdd_wellFormed.
Qed.

(** X12: toggling a preset that is trimmed and non-empty twice gives the
    chips back: a preset that is not among the chips is appended and then
    removed again. *)
Theorem togglePreset_twice (value : list string) (p : string) :
  trim p = p → p ≠ "" → p ∉ value →
  togglePreset value p = Some (value ++ [p])
  ∧ togglePreset (value ++ [p]) p = Some value.
Proof.
  intros Htrim Hne Hnew. unfold togglePreset, handleAdd, handleRemove. split.
  - rewrite decide_False by done. rewrite Htrim. by rewrite decide_True.
  - rewrite decide_True by (apply elem_of_app; right; by apply list_elem_of_singleton).
    f_equal. rewrite filter_app, filter_cons_False, filter_nil, app_nil_r
      by (by intros ?).
    clear Htrim Hne. induction value as [|v value IH]; [done|].
    apply not_elem_of_cons in Hnew as [Hv Hnew].
    rewrite filter_cons_True by done. f_equal. by apply IH.
Qed.

End ChipFacts.

(** * Further properties of the parameter tree *)

Module ParamsMore.
Import Params ParamsFacts ParamPaths JsString.

Lemma split_nonempty sep s : split sep s ≠ [].
Proof.
  destruct s as [|c s]; simpl; [done|].
  case_decide; [done|]. by destruct (split sep s).
Qed.

Lemma concat_cons_char sep c piece pieces :
  String.concat sep (String c piece :: pieces)
  = String c (String.concat sep (piece :: pieces)).
Proof. by destruct pieces. Qed.

Lemma join_split sep s : join (String sep "") (split sep s) = s.
Proof.
  unfold join. induction s as [|c s IH]; simpl; [done|].
  case_decide as Hc.
  - subst c. destruct (split sep s) as [|piece pieces] eqn:Hs.
    { by destruct (split_nonempty sep s). }
    simpl in *. by rewrite IH.
  - destruct (split sep s) as [|piece pieces] eqn:Hs.
    { by destruct (split_nonempty sep s). }
    rewrite concat_cons_char. by rewrite IH.
Qed.

Lemma split_no_sep sep s : Forall (λ piece, ¬ hasChar sep piece) (split sep s).
Proof.
  unfold hasChar. induction s as [|c s IH]; simpl.
  - constructor; [|constructor]. simpl. by intros ?%elem_of_nil.
  - case_decide as Hc.
    + constructor; [|done]. simpl. by intros ?%elem_of_nil.
    + destruct (split sep s) as [|piece pieces] eqn:Hs.
      { by destruct (split_nonempty sep s). }
      apply Forall_cons in IH as [Hp Hps]. constructor; [|done].
      simpl. intros [->|?]%elem_of_cons; done.
Qed.

Lemma split_join sep piece pieces :
  Forall (λ piece, ¬ hasChar sep piece) (piece :: pieces) →
  split sep (join (String sep "") (piece :: pieces)) = piece :: pieces.
Proof.
  unfold join, hasChar. revert piece.
  induction pieces as [|next pieces IH]; intros piece [Hp Hps]%Forall_cons.
  - simpl. clear Hps. induction piece as [|c piece IHp]; simpl; [done|].
    simpl in Hp. rewrite decide_False by (intros ->; apply Hp; by left).
    rewrite IHp; [done|]. intros ?. apply Hp. by right.
  - specialize (IH next Hps).
    change (String.concat (String sep "") (piece :: next :: pieces))
      with (piece +:+ String sep "" +:+ String.concat (String sep "") (next :: pieces)).
    revert IH. generalize (String.concat (String sep "") (next :: pieces)).
    intros tail Htail. induction piece as [|c piece IHp]; simpl.
    + rewrite decide_True by done. change ("" +:+ tail) with tail. by rewrite Htail.
    + simpl in Hp. rewrite decide_False by (intros ->; apply Hp; by left).
      rewrite IHp; [done|]. intros ?. apply Hp. by right.
Qed.

(** X13: splitting a path at the dots and joining the pieces with dots
    gives the path back; no piece holds a dot; joining pieces without dots
    and splitting again gives the pieces back; so the path that
    [renderField] builds from a category and a sub-category without dots
    splits into exactly these two keys. *)
Theorem split_join_round_trip (path : string) :
  join "." (split "." path) = path
  ∧ Forall (λ piece, ¬ hasChar "." piece) (split "." path)
  ∧ (∀ piece pieces,
       Forall (λ piece, ¬ hasChar "." piece) (piece :: pieces) →
       split "." (join "." (piece :: pieces)) = piece :: pieces)
  ∧ (∀ category subCategory,
       ¬ hasChar "." category → ¬ hasChar "." subCategory →
       split "." (Studio.fieldPath category subCategory) = [category; subCategory]).
Proof.
  split_and!.
  - apply (join_split "."%char).
  - apply split_no_sep.
  - intros piece pieces. apply (split_join "."%char).
  - intros category subCategory Hc Hs.
    apply (split_join "."%char category [subCategory]).
    by repeat constructor.
Qed.

Lemma walk_set_reads key rest value current current' :
  isEmptyValue value = false →
  walk key rest value current = Some current' →
  getPath key rest current' = Some value.
Proof.
  intros Hfull. revert key current current'.
  induction rest as [|key' rest' IH]; intros key current current'; simpl.
  - rewrite Hfull. intros [= <-]. apply objGet_objSet_eq.
  - destruct (childOf key current) as [| |fields]; try done.
    destruct (walk key' rest' value fields) as [fields'|] eqn:Hw; [|done].
    simpl. intros [= <-]. rewrite objGet_objSet_eq. by eapply IH.
Qed.

(** X14: on a tree whose containers along the path are objects or missing,
    setting the path to a value that is not empty succeeds, and the path
    then reads as that value. *)
Theorem handleParamChange_set_then_read (path : string) (value : jval) (p : obj) :
  isEmptyValue value = false →
  walkablePath path p →
  ∃ p', handleParamChange path value p = Some p'
        ∧ readPath path p' = Some value.
Proof.
  unfold walkablePath, handleParamChange, readPath.
  intros Hfull Hwalk. destruct (split "." path) as [|key rest]; [done|].
  destruct (walk_total key rest value p Hwalk) as [p' Hp'].
  exists p'. split; [done|]. by eapply walk_set_reads.
Qed.

Lemma getPath_same_head key rest (p p' : obj) :
  objGet key p' = objGet key p → getPath key rest p' = getPath key rest p.
Proof. intros Heq. destruct rest; simpl; by rewrite Heq. Qed.

Lemma getPath_nil key rest : getPath key rest [] = None.
Proof. by destruct rest. Qed.

Lemma walk_frame key rest value current current' key' rest' :
  walk key rest value current = Some current' →
  diverges key rest key' rest' →
  getPath key' rest' current' = getPath key' rest' current.
Proof.
  revert key current current' key' rest'.
  induction rest as [|r rs IH]; intros key current current' key' rest'; simpl.
  - intros [= <-] [Hne|[_ []]]. apply getPath_same_head.
    destruct (isEmptyValue value).
    + by apply objGet_objDelete_ne.
    + by apply objGet_objSet_ne.
  - unfold childOf.
    destruct (objGet key current) as [child|] eqn:Hchild.
    + destruct (truthy child) eqn:Htruthy.
      * destruct child as [| |fields]; try done.
        destruct (walk r rs value fields) as [fields'|] eqn:Hw; [|done].
        simpl. intros [= <-] [Hne|[<- Hdiv]].
        { apply getPath_same_head. by apply objGet_objSet_ne. }
        destruct rest' as [|r' rs']; [done|]. simpl.
        rewrite objGet_objSet_eq, Hchild. by eapply IH.
      * destruct (walk r rs value []) as [fields'|] eqn:Hw; [|done].
        simpl. intros [= <-] [Hne|[<- Hdiv]].
        { apply getPath_same_head. by apply objGet_objSet_ne. }
        destruct rest' as [|r' rs']; [done|]. simpl.
        rewrite objGet_objSet_eq, Hchild.
        rewrite (IH _ _ _ _ _ Hw Hdiv), getPath_nil.
        destruct child as [[|]| |]; by try done.
    + destruct (walk r rs value []) as [fields'|] eqn:Hw; [|done].
      simpl. intros [= <-] [Hne|[<- Hdiv]].
      { apply getPath_same_head. by apply objGet_objSet_ne. }
      destruct rest' as [|r' rs']; [done|]. simpl.
      rewrite objGet_objSet_eq, Hchild.
      by rewrite (IH _ _ _ _ _ Hw Hdiv), getPath_nil.
Qed.

(** X15: a change at one path is not seen at a path that parts from it:
    whatever the value, every diverging path reads the same before and
    after. *)
Theorem handleParamChange_frame (path path' : string) (value : jval) (p p' : obj) :
  handleParamChange path value p = Some p' →
  pathsDiverge path path' →
  readPath path' p' = readPath path' p.
Proof.
  unfold handleParamChange, pathsDiverge, readPath.
  destruct (split "." path) as [|key rest]; [done|].
  destruct (split "." path') as [|key' rest']; [done|].
  apply walk_frame.
Qed.

Lemma objSet_others k v (o : obj) :
  filter (λ kv, kv.1 ≠ k) (objSet k v o) = filter (λ kv, kv.1 ≠ k) o.
Proof.
  induction o as [|[k' v'] o IH]; simpl.
  - by rewrite filter_cons_False, filter_nil by (simpl; by intros ?).
  - case_decide as Hk.
    + subst k'. by rewrite !filter_cons_False by (simpl; by intros ?).
    + by rewrite !filter_cons_True, IH by done.
Qed.

Lemma objDelete_others k (o : obj) :
  filter (λ kv, kv.1 ≠ k) (objDelete k o) = filter (λ kv, kv.1 ≠ k) o.
Proof.
  unfold objDelete. induction o as [|[k' v'] o IH]; [done|].
  destruct (decide (k' = k)) as [Hk|Hk].
  - by rewrite !filter_cons_False by (simpl; by intros ?).
  - by rewrite !filter_cons_True, IH by done.
Qed.

(** X16: a change keeps the other categories as they are and in their
    order: apart from the entry of the path's first key, the tree after the
    change lists the same entries in the same order. *)
Theorem handleParamChange_keeps_order (path : string) (value : jval) (p p' : obj) :
  handleParamChange path value p = Some p' →
  ∃ key rest,
    split "." path = key :: rest
    ∧ filter (λ kv, kv.1 ≠ key) p' = filter (λ kv, kv.1 ≠ key) p.
Proof.
  unfold handleParamChange.
  destruct (split "." path) as [|key rest]; [done|].
  intros Hwalk. exists key, rest. split; [done|].
  destruct rest as [|key' rest']; simpl in Hwalk.
  - injection Hwalk as <-. destruct (isEmptyValue value).
    + apply objDelete_others.
    + apply objSet_others.
  - destruct (childOf key p) as [| |fields]; try done.
    destruct (walk key' rest' value fields) as [fields'|]; [|done].
    injection Hwalk as <-. apply objSet_others.
Qed.

Lemma objSet_objSet k v v' (o : obj) : objSet k v' (objSet k v o) = objSet k v' o.
Proof.
  induction o as [|[k0 v0] o IH]; simpl.
  - by rewrite decide_True.
  - case_decide as Hk; simpl.
    + by rewrite decide_True.
    + rewrite decide_False by done. by rewrite IH.
Qed.

Lemma objDelete_objSet k v (o : obj) : objDelete k (objSet k v o) = objDelete k o.
Proof.
  unfold objDelete. induction o as [|[k0 v0] o IH]; simpl.
  - by rewrite filter_cons_False by (simpl; by intros ?).
  - case_decide as Hk.
    + subst k0. by rewrite !filter_cons_False by (simpl; by intros ?).
    + by rewrite !filter_cons_True, IH by done.
Qed.

Lemma walk_overwrite key rest value value' current current1 :
  isEmptyValue value = false →
  walk key rest value current = Some current1 →
  walk key rest value' current1 = walk key rest value' current.
Proof.
  intros Hfull. revert key current current1.
  induction rest as [|r rs IH]; intros key current current1; simpl.
  - rewrite Hfull. intros [= <-]. f_equal. destruct (isEmptyValue value').
    + apply objDelete_objSet.
    + apply objSet_objSet.
  - destruct (childOf key current) as [| |fields] eqn:Hchild; try done.
    destruct (walk r rs value fields) as [fields1|] eqn:Hw; [|done].
    simpl. intros [= <-]. unfold childOf at 1. rewrite objGet_objSet_eq. simpl.
    rewrite (IH _ _ _ Hw).
    destruct (walk r rs value' fields) as [fields2|]; [|done].
    simpl. by rewrite objSet_objSet.
Qed.

(** X23: the last write wins.  After a value that is not empty was set at
    a path, a further change at the same path gives the tree that the
    further change alone gives; so setting the same value twice is the
    same as setting it once. *)
Theorem handleParamChange_overwrite (path : string) (value value' : jval)
    (p p1 : obj) :
  isEmptyValue value = false →
  handleParamChange path value p = Some p1 →
  handleParamChange path value' p1 = handleParamChange path value' p
  ∧ handleParamChange path value p1 = Some p1.
Proof.
  unfold handleParamChange. intros Hfull.
  destruct (split "." path) as [|key rest]; [done|]. intros Hw.
  split; [by eapply walk_overwrite|].
  by rewrite (walk_overwrite _ _ _ _ _ _ Hfull Hw).
Qed.

End ParamsMore.

(** * Further properties of the text projection *)

Module TextMore.
Import Params JsString Studio Text ChipFacts.

Lemma append_nonempty s t : s ≠ "" → s +:+ t ≠ "".
Proof. by destruct s. Qed.

Lemma formatWildcard_empty val :
  formatWildcard val = "" ↔ val = JStr "" ∨ val = JArr [] ∨ val = JArr [""].
Proof.
  split.
  - unfold formatWildcard, truthy.
    destruct val as [text|[|a [|b items]]|fields]; simpl.
    + destruct text; [by left|done].
    + by right; left.
    + intros ->. by right; right.
    + done.
    + done.
  - by intros [->|[->| ->]].
Qed.

(** The loop of [buildSegment]: the segment stays non-empty, and
    [hasContent] records whether a value was printed. *)
Lemma buildSegment_loop (items : obj) (segment : string) (hasContent : bool) :
  segment ≠ "" →
  (foldl (λ '(segment, hasContent) '(param, value),
            let formattedValue := formatWildcard value in
            if decide (formattedValue = "") then (segment, hasContent)
            else (segment +:+ nl +:+ "  - " +:+ toLowerCase (spaceCapitals param)
                          +:+ ": " +:+ formattedValue, true))
         (segment, hasContent) items).1 ≠ ""
  ∧ ((foldl (λ '(segment, hasContent) '(param, value),
               let formattedValue := formatWildcard value in
               if decide (formattedValue = "") then (segment, hasContent)
               else (segment +:+ nl +:+ "  - " +:+ toLowerCase (spaceCapitals param)
                             +:+ ": " +:+ formattedValue, true))
            (segment, hasContent) items).2 = false
     ↔ hasContent = false ∧ Forall (λ kv, formatWildcard kv.2 = "") items).
Proof.
  revert segment hasContent.
  induction items as [|[param value] items IH]; intros segment hasContent Hne.
  - simpl. split; [done|]. split; [by intros ->|by intros []].
  - cbn [foldl]. cbv beta iota zeta.
    destruct (decide (formatWildcard value = "")) as [Hv|Hv].
    + destruct (IH segment hasContent Hne) as [IH1 IH2].
      split; [exact IH1|]. etrans; [exact IH2|]. split.
      * intros [? ?]. split; [done|by constructor].
      * intros [? [_ ?]%Forall_cons]. done.
    + destruct (IH (segment +:+ nl +:+ "  - " +:+ toLowerCase (spaceCapitals param)
                      +:+ ": " +:+ formatWildcard value) true) as [IH1 IH2];
        [by apply append_nonempty|].
      split; [exact IH1|]. etrans; [exact IH2|]. split.
      * by intros [? _].
      * intros [_ [? _]%Forall_cons]. done.
Qed.

(** X17: a value prints as nothing exactly when it is [''], [[]] or [['']],
    and the section of a category is left out exactly when none of its
    values prints. *)
Theorem empty_values_print_nothing :
  (∀ val, formatWildcard val = ""
          ↔ val = JStr "" ∨ val = JArr [] ∨ val = JArr [""])
  ∧ (∀ categoryName subParams,
       buildSegment categoryName subParams = ""
       ↔ Forall (λ kv, formatWildcard kv.2 = "") (entries subParams)).
Proof.
  split; [apply formatWildcard_empty|].
  intros categoryName subParams. unfold buildSegment.
  destruct (buildSegment_loop (entries subParams)
              (nl +:+ nl +:+ upperFirst (spaceCapitals categoryName) +:+ ":") false)
    as [Hs Hh]; [done|].
  destruct (foldl _ _ (entries subParams)) as [s' h']. simpl in Hs, Hh.
  destruct h'.
  - split; [done|]. intros Hall. by specialize (proj2 Hh (conj eq_refl Hall)).
  - split; [|done]. intros _. by apply Hh.
Qed.

Lemma trimEnd_cons c s : trimEnd s ≠ "" → trimEnd (String c s) = String c (trimEnd s).
Proof. simpl. by destruct (trimEnd s). Qed.

Lemma existsb_false_Forall {A} (f : A → bool) (l : list A) :
  existsb f l = false ↔ Forall (λ x, f x = false) l.
Proof.
  induction l as [|x l IH]; simpl.
  - split; [constructor|done].
  - rewrite orb_false_iff, IH, Forall_cons. done.
Qed.

Lemma trimEnd_prefix pre c s :
  isSpace c = false → trimEnd (pre +:+ String c s) = pre +:+ trimEnd (String c s).
Proof.
  intros Hc. destruct (trimEnd_head c s Hc) as [t' Ht].
  induction pre as [|a pre IH]; [done|].
  change (String a pre +:+ String c s) with (String a (pre +:+ String c s)).
  rewrite trimEnd_cons; [by rewrite IH|]. rewrite IH, Ht. by destruct pre.
Qed.

(** The text after the final [trim()] still starts with the header. *)
Lemma trimmed_text_head type rest :
  ∃ tail, trim (header type +:+ rest) = "Create a" +:+ tail.
Proof.
  assert (∃ body, header type +:+ rest = "Create " +:+ String "a" body) as [body ->].
  { unfold header. case_decide; simpl; by eexists. }
  unfold trim. change (skipSpaces ("Create " +:+ String "a" body))
    with ("Create " +:+ String "a" body).
  rewrite trimEnd_prefix by done.
  destruct (trimEnd_head "a" body eq_refl) as [t' ->]. by exists t'.
Qed.

Lemma untrimmedText_head st text :
  untrimmedText st = Some text → ∃ tail, trim text = "Create a" +:+ tail.
Proof.
  unfold untrimmedText. destruct (rulesText (params st)) as [rules|]; [|done].
  simpl. intros [= <-]. apply trimmed_text_head.
Qed.

(** A state with content gives the trimmed text or throws. *)
Lemma trimmed_text_cases st :
  (trim <$> untrimmedText st ≠ Some "")
  ∧ ∀ text, trim <$> untrimmedText st = Some text → ∃ tail, text = "Create a" +:+ tail.
Proof.
  destruct (untrimmedText st) as [t|] eqn:Hu; simpl; [|done].
  destruct (untrimmedText_head st t Hu) as [tail Htail]. split.
  - rewrite Htail. done.
  - intros text [= <-]. by exists tail.
Qed.

(** X18: the text is empty exactly when no subject has a key besides its
    name, no category has a key and the timeline is empty; any other text
    the effect emits begins with ["Create a"]. *)
Theorem textPrompt_empty_iff_nothing_set (st : SceneState) :
  (textPrompt st = Some ""
   ↔ Forall (λ s, attrs s = []) (subjects st)
     ∧ Forall (λ kv, entries kv.2 = []) (params st)
     ∧ timeline st = [])
  ∧ (∀ text, textPrompt st = Some text → text ≠ "" →
             ∃ tail, text = "Create a" +:+ tail).
Proof.
  assert (existsb (λ s, bool_decide (2 < 2 + length (attrs s))%nat) (subjects st) = false
          ↔ Forall (λ s, attrs s = []) (subjects st)) as Hsub.
  { rewrite existsb_false_Forall. apply Forall_proper; [|done]. intros s.
    rewrite bool_decide_eq_false. destruct (attrs s); simpl; split; intros; try done; lia. }
  assert (existsb (λ kv : string * jval, bool_decide (0 < length (entries kv.2))%nat)
                  (params st) = false
          ↔ Forall (λ kv, entries kv.2 = []) (params st)) as Hpar.
  { rewrite existsb_false_Forall. apply Forall_proper; [|done]. intros kv.
    rewrite bool_decide_eq_false. destruct (entries kv.2); simpl; split; intros; try done; lia. }
  assert (bool_decide (0 < length (timeline st))%nat = false ↔ timeline st = []) as Htl.
  { rewrite bool_decide_eq_false. destruct (timeline st); simpl; split; intros; try done; lia. }
  destruct (trimmed_text_cases st) as [Hne Hhead].
  unfold textPrompt.
  destruct (existsb _ (subjects st)) eqn:Hs; simpl.
  { split; [|by intros text Hu _; apply Hhead].
    split; [done|]. intros [Hf _]. by apply Hsub in Hf. }
  destruct (existsb _ (params st)) eqn:Hp; simpl.
  { split; [|by intros text Hu _; apply Hhead].
    split; [done|]. intros (_ & Hf & _). by apply Hpar in Hf. }
  destruct (bool_decide (0 < length (timeline st))%nat) eqn:Ht; simpl.
  { split; [|by intros text Hu _; apply Hhead].
    split; [done|]. intros (_ & _ & Hf). by apply Htl in Hf. }
  split.
  - split; [|done]. intros _. split_and!; [by apply Hsub|by apply Hpar|by apply Htl].
  - by intros text [= <-] Hne'.
Qed.

End TextMore.

(** * The grab: mouse down, then a move at the same position *)

Module GrabFacts.
Import Drag DragFacts Render.

Lemma round_integer z : round (inject_Z z) = z.
Proof.
  unfold round, Qfloor, Qplus, inject_Z. simpl.
  change (Z.pos (1 * 2)) with 2. symmetry. apply Z.div_unique with (r := 1); lia.
Qed.

Lemma inject_Z_pos z : 0 < z → (0 < inject_Z z)%Q.
Proof. intros. unfold Qlt. simpl. lia. Qed.

Lemma widthPercent_integer ev duration :
  start ev < end_ ev →
  (widthPercent ev duration
   == inject_Z (end_ ev - start ev) / inject_Z duration * 100)%Q.
Proof.
  intros Hlen. unfold widthPercent. rewrite Q.max_r; [done|].
  unfold Qle. simpl. lia.
Qed.

Lemma percentOf_eq_ratio mouseX rect :
  (0 <= mouseX / width rect)%Q → (mouseX / width rect <= 1)%Q →
  (percentOf mouseX rect == mouseX / width rect)%Q.
Proof.
  intros H0 H1. unfold percentOf.
  rewrite Q.min_r by done. by rewrite Q.max_r.
Qed.

(** The pointer is inside the timeline when it is inside the event. *)
Lemma pointer_in_timeline (tL W cX eL eW : Q) (s e dur : Z) :
  0 < dur → (0 < W)%Q → 0 ≤ s → s < e → e ≤ dur →
  (eL == tL + inject_Z s / inject_Z dur * W)%Q →
  (eW == inject_Z (e - s) / inject_Z dur * W)%Q →
  (eL <= cX)%Q → (cX <= eL + eW)%Q →
  (0 <= (cX - tL) / W)%Q ∧ ((cX - tL) / W <= 1)%Q.
Proof.
  intros Hdur HW Hs Hse He HeL HeW Hlo Hhi.
  pose proof (inject_Z_pos dur Hdur) as Hd.
  assert (0 <= inject_Z s / inject_Z dur)%Q as Ha.
  { apply Qle_shift_div_l; [done|]. rewrite Qmult_0_l. unfold Qle. simpl. lia. }
  assert (inject_Z s / inject_Z dur + inject_Z (e - s) / inject_Z dur <= 1)%Q as Hc.
  { assert (inject_Z s / inject_Z dur + inject_Z (e - s) / inject_Z dur
            == inject_Z e / inject_Z dur)%Q as ->.
    { unfold Zminus. rewrite inject_Z_plus, inject_Z_opp. field. lra. }
    apply Qle_shift_div_r; [done|]. rewrite Qmult_1_l. unfold Qle. simpl. lia. }
  rewrite HeL, HeW in Hhi. rewrite HeL in Hlo.
  split.
  - apply Qle_shift_div_l; [done|]. nra.
  - apply Qle_shift_div_r; [done|]. nra.
Qed.

(** The offset captured at mouse down cancels against the position. *)
Lemma offset_cancels (tL W cX eL eW : Q) (s e dur : Z) :
  0 < dur → (0 < W)%Q → s < e →
  (eL == tL + inject_Z s / inject_Z dur * W)%Q →
  (eW == inject_Z (e - s) / inject_Z dur * W)%Q →
  ((cX - tL) / W * inject_Z dur - (cX - eL) / eW * inject_Z (e - s)
   == inject_Z s)%Q.
Proof.
  intros Hdur HW Hse HeL HeW. rewrite HeL, HeW.
  pose proof (inject_Z_pos dur Hdur).
  pose proof (inject_Z_pos (e - s) ltac:(lia)).
  field. split_and!; lra.
Qed.

End GrabFacts.

Module GrabTheorems.
Import Drag DragFacts Render GrabFacts.

(** X19: an event is grabbed without a jump.  When the event's box is
    where its [left] and [width] percentages put it in a timeline of
    positive width and duration, and the event satisfies
    [0 <= start < end <= duration], then after a mouse down inside the box
    a pointer move at the same position computes the event's own start and
    emits no update. *)
Theorem grab_does_not_move (timelineRect eventRect : Rect) (clientX : Q)
    (events : list TimelineEvent) (duration : Z) (ev : TimelineEvent) :
  0 < duration →
  (0 < width timelineRect)%Q →
  findEvent (ev_id ev) events = Some ev →
  0 ≤ start ev → start ev < end_ ev → end_ ev ≤ duration →
  styledBox timelineRect ev duration eventRect →
  (left eventRect <= clientX)%Q →
  (clientX <= left eventRect + width eventRect)%Q →
  ∃ d, handleMouseDown (Some timelineRect) eventRect clientX ev = Some d
       ∧ drag_id d = ev_id ev
       ∧ candidateStart (percentOf (clientX - left timelineRect) timelineRect)
                        duration d = start ev
       ∧ handleMouseMove (Some d) (Some timelineRect) clientX events duration = None.
Proof.
  intros Hdur HW Hfind Hs Hlen He [HeL HeW] Hlo Hhi.
  rewrite (widthPercent_integer _ _ Hlen) in HeW. unfold leftPercent in HeL.
  assert (left eventRect
          == left timelineRect
             + inject_Z (start ev) / inject_Z duration * width timelineRect)%Q as HeL'.
  { rewrite HeL. pose proof (inject_Z_pos duration Hdur). field. lra. }
  assert (width eventRect
          == inject_Z (end_ ev - start ev) / inject_Z duration * width timelineRect)%Q
    as HeW'.
  { rewrite HeW. pose proof (inject_Z_pos duration Hdur). field. lra. }
  destruct (pointer_in_timeline _ _ _ _ _ _ _ _ Hdur HW Hs Hlen He HeL' HeW' Hlo Hhi)
    as [Hp0 Hp1].
  eexists. split; [reflexivity|]. split; [reflexivity|].
  assert (candidateStart (percentOf (clientX - left timelineRect) timelineRect) duration
            (mkDrag (ev_id ev)
               ((clientX - left eventRect) / width eventRect
                * inject_Z (end_ ev - start ev))%Q)
          = start ev) as Hcand.
  { unfold candidateStart. simpl startOffset.
    rewrite <- (round_integer (start ev)) at 2. unfold round. apply Qfloor_comp.
    rewrite (percentOf_eq_ratio _ _ Hp0 Hp1).
    by rewrite (offset_cancels _ _ _ _ _ _ _ _ Hdur HW Hlen HeL' HeW'). }
  split; [exact Hcand|].
  unfold handleMouseMove. simpl drag_id. rewrite Hfind. cbv beta iota zeta.
  unfold clampedStartOf. rewrite Hcand. unfold clampStart.
  rewrite decide_False; [done|]. lia.
Qed.

End GrabTheorems.

(** * Properties of the form studios *)

Module FormsFacts.
Import Params JsString Forms.

Lemma nonEmpty_false s : nonEmpty s = false ↔ s = "".
Proof.
  unfold nonEmpty. rewrite bool_decide_eq_false. split; [apply dec_stable|].
  by intros -> ?.
Qed.

Lemma hasItems_false (l : list string) : hasItems l = false ↔ l = [].
Proof.
  unfold hasItems. rewrite bool_decide_eq_false.
  destruct l; simpl; split; intros; try done; lia.
Qed.

Lemma join_parts_empty (parts : list string) :
  Forall (λ part, part ≠ "") parts → (join " " parts = "" ↔ parts = []).
Proof.
  intros Hall. split; [|by intros ->].
  destruct Hall as [|part parts Hpart _]; [done|].
  unfold join. simpl. destruct parts; [done|]. by destruct part.
Qed.

Lemma pushIf_nonempty cond part parts :
  part ≠ "" → Forall (λ part, part ≠ "") parts →
  Forall (λ part, part ≠ "") (pushIf cond part parts).
Proof.
  intros Hp Hall. unfold pushIf. destruct cond; [|done].
  apply Forall_app. split; [done|]. by constructor.
Qed.

Lemma pushIf_nil cond part parts :
  pushIf cond part parts = [] ↔ cond = false ∧ parts = [].
Proof.
  unfold pushIf. destruct cond; split.
  - by intros ?%app_eq_nil%proj2.
  - by intros [].
  - done.
  - by intros [_ ?].
Qed.

End FormsFacts.

Module FormsTheorems.
Import Params JsString Forms FormsFacts.

(** X20: the product text is empty exactly when every field of the active
    mode is empty; the fields of the other mode do not count. *)
Theorem productText_empty_iff (state : ProductState) :
  productText state = ""
  ↔ match mode state with
    | Standard =>
        productDescription state = "" ∧ shotType state = []
        ∧ cameraAngle state = [] ∧ lighting state = []
        ∧ background state = "" ∧ props state = ""
    | Mockup =>
        mockupType state = [] ∧ mockupLogo state = ""
        ∧ mockupColors state = "" ∧ mockupContext state = ""
    end.
Proof.
  unfold productText. destruct (mode state); cbv zeta.
  - rewrite join_parts_empty by (repeat (apply pushIf_nonempty; [done|]); constructor).
    rewrite !pushIf_nil, !nonEmpty_false, !hasItems_false. tauto.
  - rewrite join_parts_empty by (repeat (apply pushIf_nonempty; [done|]); constructor).
    rewrite !pushIf_nil, !nonEmpty_false, !hasItems_false. tauto.
Qed.

Lemma finalSize_custom state :
  size state = "custom" →
  finalSize state
  = if nonEmpty (customWidth state) && nonEmpty (customHeight state)
    then customWidth state +:+ "x" +:+ customHeight state else "".
Proof. intros Hs. unfold finalSize. by rewrite decide_True. Qed.

(** X21: the banner text is empty exactly when the style prints as
    nothing, the size is empty and the four text fields are empty; a custom
    size counts only when both its width and its height are given. *)
Theorem bannerText_empty_iff (state : BannerState) :
  (bannerText state = ""
   ↔ formatList (style state) = "" ∧ finalSize state = ""
     ∧ palette state = "" ∧ headline state = ""
     ∧ body state = "" ∧ cta state = "")
  ∧ (size state = "custom" →
     (finalSize state = ""
      ↔ customWidth state = "" ∨ customHeight state = "")).
Proof.
  split.
  - unfold bannerText. cbv zeta.
    destruct (nonEmpty (formatList (style state)) || nonEmpty (finalSize state))
      eqn:Hfirst.
    + rewrite join_parts_empty.
      * rewrite !pushIf_nil. split; [by intros (_ & _ & _ & _ & ?%app_eq_nil%proj2)|].
        intros (Hst & Hsz & _). apply nonEmpty_false in Hst, Hsz.
        by rewrite Hst, Hsz in Hfirst.
      * repeat (apply pushIf_nonempty; [done|]). constructor; [|constructor].
        destruct (nonEmpty (formatList _)), (nonEmpty (finalSize _)); done.
    + apply orb_false_iff in Hfirst as [Hst Hsz].
      rewrite join_parts_empty by (repeat (apply pushIf_nonempty; [done|]); constructor).
      rewrite !pushIf_nil, !nonEmpty_false.
      apply nonEmpty_false in Hst, Hsz. tauto.
  - intros Hcustom. rewrite (finalSize_custom _ Hcustom).
    destruct (nonEmpty (customWidth state)) eqn:Hw,
             (nonEmpty (customHeight state)) eqn:Hh; simpl.
    + split.
      * intros Happ. apply bool_decide_eq_true in Hw.
        by destruct (customWidth state).
      * apply bool_decide_eq_true in Hw, Hh. by intros [|].
    + apply nonEmpty_false in Hh. split; [by right|done].
    + apply nonEmpty_false in Hw. split; [by left|done].
    + apply nonEmpty_false in Hw. split; [by left|done].
Qed.

End FormsTheorems.

(** * The layout of the timelines the studio can hold *)

Module StudioLayout.
Import Layout LayoutFacts LayoutInv LayoutMore Studio StudioInv StudioMore.

(** X22: the timeline of every reachable state meets what the layout is
    written for: in its layout no two entries that share a lane overlap,
    and no instant is covered by more events than there are lanes. *)
Theorem reachable_layout_correct (st : SceneState) :
  reachable st →
  (∀ i j x y,
     i ≠ j →
     layout (calculateLayout (timeline st)) !! i = Some x →
     layout (calculateLayout (timeline st)) !! j = Some y →
     lane x = lane y → ¬ overlaps (event x) (event y))
  ∧ (∀ t, Z.of_nat (depth t (timeline st))
          ≤ totalLanes (calculateLayout (timeline st))).
Proof.
  intros Hwf%reachable_wellFormed.
  assert (Forall (λ e, start e < end_ e) (timeline st)) as Hlen.
  { eapply Forall_impl; [exact Hwf|]. by intros e (_ & ? & _). }
  split.
  - rewrite layout_of_calculateLayout. apply placeAll_disjoint.
    + rewrite sort_perm. eapply Forall_impl; [exact Hlen|]. simpl. intros; lia.
    + intros x Hx. by apply elem_of_nil in Hx.
    + intros i j x y _ Hi. by rewrite lookup_nil in Hi.
  - intros t. by apply depth_le_totalLanes.
Qed.

End StudioLayout.

(** * Instances of the further theorems on concrete inputs *)

Module MoreWitnesses.
Import Layout LayoutInv Drag Render Params ParamPaths JsString Studio StudioInv
       Text Scrubber ChipInput Forms.

Ltac lengths_positive :=
  repeat (constructor; [vm_compute; reflexivity|]); constructor.

Lemma totalLanes_is_peak_depth_witness :
  Forall (λ e, start e < end_ e) [e04; e26]
  ∧ (∀ t, Z.of_nat (depth t [e04; e26]) ≤ totalLanes (calculateLayout [e04; e26]))
  ∧ (∃ t, Z.of_nat (depth t [e04; e26]) = totalLanes (calculateLayout [e04; e26])).
Proof.
  assert (Forall (λ e, start e < end_ e) [e04; e26]) as H by lengths_positive.
  split; [exact H|]. exact (LayoutMore.totalLanes_is_peak_depth [e04; e26] H).
Defined.

Lemma mutually_overlapping_lanes_witness :
  Forall (covers 2) [e04; e26]
  ∧ totalLanes (calculateLayout [e04; e26]) = 2.
Proof.
  assert (Forall (covers 2) [e04; e26]) as H.
  { repeat (constructor; [split; vm_compute; [discriminate|reflexivity]|]).
    constructor. }
  split; [exact H|]. exact (LayoutMore.mutually_overlapping_lanes [e04; e26] 2 H).
Defined.

Lemma disjoint_events_one_lane_witness :
  Forall (λ e, start e < end_ e) [e03; e36]
  ∧ pairwiseDisjoint [e03; e36]
  ∧ totalLanes (calculateLayout [e03; e36]) = 1
  ∧ Forall (λ x, lane x = 0) (layout (calculateLayout [e03; e36])).
Proof.
  assert (Forall (λ e, start e < end_ e) [e03; e36]) as H by lengths_positive.
  assert (pairwiseDisjoint [e03; e36]) as Hd.
  { intros [|[|i]] [|[|j]] a b Hij Ha Hb; simpl in Ha, Hb; try done;
      injection Ha as <-; injection Hb as <-; unfold overlaps; simpl; lia. }
  split_and!; [exact H|exact Hd|..].
  - exact (proj1 (LayoutMore.disjoint_events_one_lane [e03; e36] H Hd ltac:(discriminate))).
  - exact (proj2 (LayoutMore.disjoint_events_one_lane [e03; e36] H Hd ltac:(discriminate))).
Defined.

Lemma calculateLayout_first_fit_witness :
  Forall (λ e, start e < end_ e) [e26; e04]
  ∧ layout (calculateLayout [e26; e04]) !! 1%nat = Some (mkLaidOut e26 1)
  ∧ ∃ m y, (m < 1)%nat
           ∧ layout (calculateLayout [e26; e04]) !! m = Some y
           ∧ lane y = 0
           ∧ overlaps (event y) e26.
Proof.
  assert (Forall (λ e, start e < end_ e) [e26; e04]) as H by lengths_positive.
  assert (layout (calculateLayout [e26; e04]) !! 1%nat = Some (mkLaidOut e26 1)) as Hx
    by reflexivity.
  split_and!; [exact H|exact Hx|].
  exact (LayoutMore.calculateLayout_first_fit [e26; e04] H 1%nat _ Hx 0 ltac:(simpl; lia)).
Defined.

Lemma mouse_move_twice_witness :
  handle (MouseMove (mkRect 0 (100 # 1)) (90 # 1)) draggingState
  = Some (setTimeline [moved e25 9 12] draggingState)
  ∧ handle (MouseMove (mkRect 0 (100 # 1)) (90 # 1))
           (setTimeline [moved e25 9 12] draggingState)
    = Some (setTimeline [moved e25 9 12] draggingState).
Proof.
  assert (handle (MouseMove (mkRect 0 (100 # 1)) (90 # 1)) draggingState
          = Some (setTimeline [moved e25 9 12] draggingState)) as H
    by (vm_compute; reflexivity).
  split; [exact H|]. exact (StudioMore.mouse_move_twice _ _ _ _ H).
Defined.

Lemma mouse_move_frame_witness :
  handle (MouseMove (mkRect 0 (100 # 1)) (90 # 1)) draggingState
  = Some (setTimeline [moved e25 9 12] draggingState)
  ∧ ev_id <$> timeline (setTimeline [moved e25 9 12] draggingState)
    = ev_id <$> timeline draggingState.
Proof.
  assert (handle (MouseMove (mkRect 0 (100 # 1)) (90 # 1)) draggingState
          = Some (setTimeline [moved e25 9 12] draggingState)) as H
    by (vm_compute; reflexivity).
  split; [exact H|]. exact (proj1 (StudioMore.mouse_move_frame _ _ _ _ H)).
Defined.

Lemma reachable_events_wellFormed_witness :
  ∃ st e, reachable st ∧ e ∈ timeline st
          ∧ 0 ≤ start e ∧ start e < end_ e ∧ value e ≠ "".
Proof.
  destruct (StudioFacts.runActions_reachable (initial "0") sessionActions)
    as (st & Hrun & Hreach).
  - exists "0". apply rtc_refl.
  - vm_compute. repeat split; try reflexivity; try discriminate.
  - assert (mkEvent "evt_1" "action" "scene.action" "action" None 2 5 "run"
            ∈ timeline st) as He.
    { vm_compute in Hrun. injection Hrun as <-. left. }
    exists st, (mkEvent "evt_1" "action" "scene.action" "action" None 2 5 "run").
    split; [exact Hreach|]. split; [exact He|].
    exact (StudioMore.reachable_events_wellFormed st _ Hreach He).
Defined.

Lemma reachable_layout_correct_witness :
  ∃ st, reachable st ∧ length (timeline st) = 1%nat
        ∧ ∀ t, Z.of_nat (depth t (timeline st))
               ≤ totalLanes (calculateLayout (timeline st)).
Proof.
  destruct (StudioFacts.runActions_reachable (initial "0") sessionActions)
    as (st & Hrun & Hreach).
  - exists "0". apply rtc_refl.
  - vm_compute. repeat split; try reflexivity; try discriminate.
  - exists st. split; [exact Hreach|]. split.
    + vm_compute in Hrun. by injection Hrun as <-.
    + exact (proj2 (StudioLayout.reachable_layout_correct st Hreach)).
Defined.

Lemma removeSubject_no_dangling_witness :
  noDangling twoSubjects ∧ noDangling (removeSubject "s1" twoSubjects).
Proof.
  assert (noDangling twoSubjects) as H.
  { intros e sid He Hsid. simpl in He.
    repeat (apply elem_of_cons in He as [->|He]);
      [| |discriminate Hsid|by apply elem_of_nil in He]; injection Hsid as <-.
    - exists (mkSubject "s1" "hero" []). split; [left|reflexivity].
    - exists (mkSubject "s2" "villain" []). split; [right; left|reflexivity]. }
  split; [exact H|]. exact (StudioMore.removeSubject_no_dangling "s1" twoSubjects H).
Defined.

Lemma scrubber_adds_valid_range_witness :
  scrubberReachable 12 selected42
  ∧ handleAddClick selected42 = (Some (2, 5), initialScrubber)
  ∧ (∀ sec, getIsSelected selected42 sec = true ↔ 2 ≤ sec < 5).
Proof.
  assert (scrubberReachable 12 selected42) as Hreach.
  { eapply rtc_l; [exists (CellDown 4); split; [simpl; lia|reflexivity]|].
    eapply rtc_l; [exists (CellEnter 2); split; [simpl; lia|reflexivity]|].
    apply rtc_refl. }
  assert (handleAddClick selected42 = (Some (2, 5), initialScrubber)) as Hadd
    by reflexivity.
  split_and!; [exact Hreach|exact Hadd|].
  exact (proj1 (proj2 (proj2 (proj2
           (ScrubberFacts.scrubber_adds_valid_range 12 _ _ _ _ Hreach Hadd))))).
Defined.

Lemma chip_handlers_keep_wellFormed_witness :
  chipsWellFormed ["a"]
  ∧ handleAdd ["a"] " b " = Some ["a"; "b"]
  ∧ chipsWellFormed ["a"; "b"].
Proof.
  assert (chipsWellFormed ["a"]) as H.
  { split; [apply NoDup_singleton|]. constructor; [|constructor].
    split; [discriminate|reflexivity]. }
  assert (handleAdd ["a"] " b " = Some ["a"; "b"]) as Hadd by reflexivity.
  split_and!; [exact H|exact Hadd|].
  exact (proj2 (proj1 (ChipFacts.chip_handlers_keep_wellFormed ["a"] " b " H) _ Hadd)).
Defined.

Lemma togglePreset_twice_witness :
  trim "b" = "b" ∧ "b" ≠ "" ∧ ("b" ∉ ["a"])
  ∧ togglePreset ["a"] "b" = Some ["a"; "b"]
  ∧ togglePreset ["a"; "b"] "b" = Some ["a"].
Proof.
  assert (trim "b" = "b") as Ht by reflexivity.
  assert ("b" ≠ "") as Hne by discriminate.
  assert ("b" ∉ ["a"]) as Hnew.
  { intros [Heq|Hin]%elem_of_cons; [discriminate Heq|by apply elem_of_nil in Hin]. }
  split_and!; [exact Ht|exact Hne|exact Hnew|..].
  - exact (proj1 (ChipFacts.togglePreset_twice ["a"] "b" Ht Hne Hnew)).
  - exact (proj2 (ChipFacts.togglePreset_twice ["a"] "b" Ht Hne Hnew)).
Defined.

Lemma split_join_round_trip_witness :
  Forall (λ piece, ¬ hasChar "." piece) ["camera"; "angle"]
  ∧ split "." (join "." ["camera"; "angle"]) = ["camera"; "angle"]
  ∧ split "." (fieldPath "camera" "angle") = ["camera"; "angle"].
Proof.
  assert (Forall (λ piece, ¬ hasChar "." piece) ["camera"; "angle"]) as H.
  { exact (proj1 (proj2 (ParamsMore.split_join_round_trip "camera.angle"))). }
  split_and!; [exact H|..].
  - exact (proj1 (proj2 (proj2 (ParamsMore.split_join_round_trip "camera.angle")))
             _ _ H).
  - apply Forall_cons in H as [Hc [Ha _]%Forall_cons].
    exact (proj2 (proj2 (proj2 (ParamsMore.split_join_round_trip "camera.angle")))
             _ _ Hc Ha).
Defined.

Lemma handleParamChange_set_then_read_witness :
  isEmptyValue (JArr ["low"]) = false
  ∧ walkablePath "camera.angle" []
  ∧ ∃ p', handleParamChange "camera.angle" (JArr ["low"]) [] = Some p'
          ∧ readPath "camera.angle" p' = Some (JArr ["low"]).
Proof.
  assert (isEmptyValue (JArr ["low"]) = false) as Hv by reflexivity.
  assert (walkablePath "camera.angle" []) as Hw by exact I.
  split_and!; [exact Hv|exact Hw|].
  exact (ParamsMore.handleParamChange_set_then_read "camera.angle" _ [] Hv Hw).
Defined.

Lemma handleParamChange_frame_witness :
  handleParamChange "camera.angle" (JArr [])
    [("camera", JObj [("angle", JArr ["low"]); ("lens", JArr ["35mm"])])]
  = Some [("camera", JObj [("lens", JArr ["35mm"])])]
  ∧ pathsDiverge "camera.angle" "camera.lens"
  ∧ readPath "camera.lens" [("camera", JObj [("lens", JArr ["35mm"])])]
    = readPath "camera.lens"
        [("camera", JObj [("angle", JArr ["low"]); ("lens", JArr ["35mm"])])].
Proof.
  assert (handleParamChange "camera.angle" (JArr [])
            [("camera", JObj [("angle", JArr ["low"]); ("lens", JArr ["35mm"])])]
          = Some [("camera", JObj [("lens", JArr ["35mm"])])]) as H by reflexivity.
  assert (pathsDiverge "camera.angle" "camera.lens") as Hd.
  { right. split; [reflexivity|]. left. discriminate. }
  split_and!; [exact H|exact Hd|].
  exact (ParamsMore.handleParamChange_frame _ _ _ _ _ H Hd).
Defined.

Lemma handleParamChange_keeps_order_witness :
  handleParamChange "camera.angle" (JArr ["low"])
    [("scene", JObj []); ("camera", JObj []); ("style", JObj [])]
  = Some [("scene", JObj []); ("camera", JObj [("angle", JArr ["low"])]);
          ("style", JObj [])]
  ∧ ∃ key rest,
      split "." "camera.angle" = key :: rest
      ∧ filter (λ kv : string * jval, kv.1 ≠ key)
               [("scene", JObj []); ("camera", JObj [("angle", JArr ["low"])]);
                ("style", JObj [])]
        = filter (λ kv : string * jval, kv.1 ≠ key)
                 [("scene", JObj []); ("camera", JObj []); ("style", JObj [])].
Proof.
  assert (handleParamChange "camera.angle" (JArr ["low"])
            [("scene", JObj []); ("camera", JObj []); ("style", JObj [])]
          = Some [("scene", JObj []); ("camera", JObj [("angle", JArr ["low"])]);
                  ("style", JObj [])]) as H by reflexivity.
  split; [exact H|].
  exact (ParamsMore.handleParamChange_keeps_order _ _ _ _ H).
Defined.

Lemma textPrompt_empty_iff_nothing_set_witness :
  textPrompt (initial "0") = Some ""
  ∧ ∃ text, textPrompt technicalAndRules = Some text ∧ text ≠ ""
            ∧ ∃ tail, text = "Create a" +:+ tail.
Proof.
  split.
  - apply (proj1 (TextMore.textPrompt_empty_iff_nothing_set (initial "0"))).
    split_and!; [|constructor|reflexivity]. constructor; [reflexivity|constructor].
  - assert (∃ text, textPrompt technicalAndRules = Some text ∧ text ≠ "")
      as (text & Ht & Hne).
    { eexists. split; [vm_compute; reflexivity|discriminate]. }
    exists text. split_and!; [exact Ht|exact Hne|].
    exact (proj2 (TextMore.textPrompt_empty_iff_nothing_set technicalAndRules)
                 text Ht Hne).
Defined.

Lemma grab_does_not_move_witness :
  styledBox (mkRect 0 (100 # 1)) e25 10 (mkRect (20 # 1) (30 # 1))
  ∧ ∃ d, Drag.handleMouseDown (Some (mkRect 0 (100 # 1)))
                              (mkRect (20 # 1) (30 # 1)) (35 # 1) e25 = Some d
         ∧ Drag.handleMouseMove (Some d) (Some (mkRect 0 (100 # 1))) (35 # 1)
                                [e25] 10
           = None.
Proof.
  assert (styledBox (mkRect 0 (100 # 1)) e25 10 (mkRect (20 # 1) (30 # 1))) as Hbox.
  { split; vm_compute; reflexivity. }
  split; [exact Hbox|].
  destruct (GrabTheorems.grab_does_not_move
              (mkRect 0 (100 # 1)) (mkRect (20 # 1) (30 # 1)) (35 # 1) [e25] 10 e25)
    as (d & Hd & _ & _ & Hm).
  - lia.
  - reflexivity.
  - reflexivity.
  - simpl; lia.
  - simpl; lia.
  - simpl; lia.
  - exact Hbox.
  - vm_compute. discriminate.
  - vm_compute. discriminate.
  - exists d. split; [exact Hd|exact Hm].
Defined.

Lemma bannerText_empty_iff_witness :
  size customBanner = "custom"
  ∧ finalSize customBanner = ""
  ∧ bannerText customBanner = "".
Proof.
  assert (size customBanner = "custom") as Hs by reflexivity.
  assert (finalSize customBanner = "") as Hf.
  { apply (proj2 (proj2 (FormsTheorems.bannerText_empty_iff customBanner) Hs)).
    by right. }
  split_and!; [exact Hs|exact Hf|].
  apply (proj1 (FormsTheorems.bannerText_empty_iff customBanner)).
  split_and!; [reflexivity|exact Hf|reflexivity..].
Defined.

Lemma handleParamChange_overwrite_witness :
  isEmptyValue (JArr ["low"]) = false
  ∧ handleParamChange "camera.angle" (JArr ["low"]) []
    = Some [("camera", JObj [("angle", JArr ["low"])])]
  ∧ handleParamChange "camera.angle" (JArr ["high"])
      [("camera", JObj [("angle", JArr ["low"])])]
    = handleParamChange "camera.angle" (JArr ["high"]) [].
Proof.
  assert (isEmptyValue (JArr ["low"]) = false) as Hv by reflexivity.
  assert (handleParamChange "camera.angle" (JArr ["low"]) []
          = Some [("camera", JObj [("angle", JArr ["low"])])]) as H by reflexivity.
  split_and!; [exact Hv|exact H|].
  exact (proj1 (ParamsMore.handleParamChange_overwrite _ _ (JArr ["high"]) _ _ Hv H)).
Defined.

End MoreWitnesses.
